(** * Rolling-ball baseline: a shallow embedding of [src/rollingBall.ts]

    The TypeScript function [rollingBall] takes a spectrum and an options
    object and returns a [Float64Array].  JavaScript numbers are IEEE 754
    binary64 values, so they are embedded as Rocq's primitive [float]; the
    typed arrays are lists of floats updated by index; a thrown exception is
    an explicit [Throw] result. *)

From Stdlib Require Import ZArith List Floats Lia Bool String.
From stdpp Require Import base list.

Set Warnings "-inexact-float".

Local Open Scope Z_scope.

(** ** JavaScript values reaching [rollingBall]

    TypeScript types are erased at run time, so the [spectrum] argument may be
    any value: a primitive, a string, an object that is not an array, or an
    array (plain or typed).  The elements of an array are primitives other
    than strings. *)

Inductive JsPrim : Type :=
| JsUndefined
| JsNull
| JsBoolean (b : bool)
| JsNumber (x : float).

Inductive JsValue : Type :=
| JsPrimitive (p : JsPrim)
| JsString (s : string)
| JsObject
| JsAnyArray (elems : list JsPrim).

(** ECMAScript [ToNumber] on these primitives: what a store into a
    [Float64Array] and the relational operators apply to their operands. *)
Definition ToNumber (p : JsPrim) : float :=
  match p with
  | JsUndefined => nan
  | JsNull => 0%float
  | JsBoolean true => 1%float
  | JsBoolean false => 0%float
  | JsNumber x => x
  end.

(** [a < b] on non-string primitives: both operands go through [ToNumber]
    and any comparison with NaN is false. *)
Definition js_lt (a b : JsPrim) : bool :=
  PrimFloat.ltb (ToNumber a) (ToNumber b).

(** A JavaScript integer (an array length) as a number. *)
Definition number_of_nat (n : nat) : float :=
  PrimFloat.of_uint63 (Uint63.of_Z (Z.of_nat n)).

(** [Math.round]: the integer nearest to [x], ties going towards +infinity.
    The value of a finite float is [m * 2^e]; the result is the floor of
    [m * 2^e + 1/2].  Non-finite arguments do not arise from an array length
    and are mapped to 0. *)
Definition SFround (x : spec_float) : Z :=
  match x with
  | S754_finite s m e =>
      let v := cond_Zopp s (Zpos m) in
      if 0 <=? e then v * 2 ^ e
      else (2 * v + 2 ^ (- e)) / 2 ^ (1 - e)
  | _ => 0
  end.

Definition Math_round (x : float) : Z := SFround (Prim2SF x).

(** ** Exceptions *)

Inductive JsError : Type :=
| Error (message : string)
| TypeError (message : string).

Inductive Completion (A : Type) : Type :=
| Return (a : A)
| Throw (e : JsError).
Arguments Return {A} a.
Arguments Throw {A} e.

(** The two error kinds of the specification, as the source raises them. *)
Definition InvalidInputError : JsError := Error "Spectrum must be an array".
Definition EmptyInputError : JsError := TypeError "Spectrum must not be empty".

(** ** Imported helpers *)

(** Modelled from the spec: [isAnyArray] of the [is-any-array] package is not
    under src/; it accepts plain and typed arrays and rejects everything
    else, without looking at the elements. *)
Definition isAnyArray (v : JsValue) : bool :=
  match v with
  | JsAnyArray _ => true
  | _ => false
  end.

(** [spectrum.length] and [spectrum[i]] of an array value. *)
Definition js_elements (v : JsValue) : list JsPrim :=
  match v with
  | JsAnyArray elems => elems
  | _ => []
  end.

(** [array.subarray(begin, end)]: the elements at [begin <= i < end]. *)
Definition subarray {A : Type} (array : list A) (fromIndex toIndex : nat) : list A :=
  take (toIndex - fromIndex)%nat (drop fromIndex array).

(** [array[index]]; reading past the end gives [undefined]. *)
Definition js_get (array : list JsPrim) (index : nat) : JsPrim :=
  default JsUndefined (array !! index).

(** The helpers [xMinValue] and [xMaxValue] of [ml-spectra-processing] are
    not under src/.  In that library [fromIndex] and [toIndex] name the first
    and the last index of the range, both included, and an index past the
    end is brought back to [length - 1]. *)
Definition clamp_index (len index : nat) : nat :=
  if (len <=? index)%nat then (len - 1)%nat else index.

(** [xMinValue(array, {fromIndex, toIndex})]: a scan that starts from
    [array[fromIndex]], runs over the indices up to [toIndex] included, and
    keeps a later element when it is strictly smaller.  Every call made by
    [rollingBall] has [fromIndex <= toIndex]. *)
Definition xMinValue (array : list JsPrim) (fromIndex toIndex : nat) : JsPrim :=
  let fromIndex := clamp_index (length array) fromIndex in
  let toIndex := clamp_index (length array) toIndex in
  fold_left (fun minValue v => if js_lt v minValue then v else minValue)
    (subarray array (fromIndex + 1) (toIndex + 1)) (js_get array fromIndex).

(** [xMaxValue(array, {fromIndex, toIndex})]: the same scan, keeping a later
    element when it is strictly larger. *)
Definition xMaxValue (array : list JsPrim) (fromIndex toIndex : nat) : JsPrim :=
  let fromIndex := clamp_index (length array) fromIndex in
  let toIndex := clamp_index (length array) toIndex in
  fold_left (fun maxValue v => if js_lt maxValue v then v else maxValue)
    (subarray array (fromIndex + 1) (toIndex + 1)) (js_get array fromIndex).

(** Modelled from the spec: [xMean] of [ml-spectra-processing] is not under
    src/.  The specification reads its result as the unweighted arithmetic
    average of the values, computed in floating point: the sum taken from
    left to right, divided by the number of values.  It is only applied to a
    [Float64Array]. *)
Definition xMean (array : list float) : float :=
  match array with
  | [] => nan
  | first :: rest =>
      (fold_left PrimFloat.add rest first / number_of_nat (length array))%float
  end.

(** ** [rollingBall] *)

(** [Partial<Options>]: each radius may be left out. *)
Record Options : Type := { windowM : option nat ; windowS : option nat }.

(** [new Float64Array(n)] is zero-filled. *)
Definition Float64Array (n : nat) : list float := replicate n 0%float.

(** [Math.max(0, i - window)] and [Math.min(i + window + 1, length)]. *)
Definition windowLeft (i window : nat) : nat :=
  Z.to_nat (Z.max 0 (Z.of_nat i - Z.of_nat window)).

Definition windowRight (i window len : nat) : nat :=
  Z.to_nat (Z.min (Z.of_nat i + Z.of_nat window + 1) (Z.of_nat len)).

(** The defaults of the destructuring pattern:
    [Math.round(numberPoints * 0.04)] and [Math.round(numberPoints * 0.08)]. *)
Definition defaultWindowM (numberPoints : nat) : nat :=
  Z.to_nat (Math_round (number_of_nat numberPoints * 0.04)%float).

Definition defaultWindowS (numberPoints : nat) : nat :=
  Z.to_nat (Math_round (number_of_nat numberPoints * 0.08)%float).

(** The first loop: [minima[i] = xMinValue(spectrum, {fromIndex, toIndex})]. *)
Definition minima_loop (spectrum : list JsPrim) (windowM : nat)
    (minima : list float) : list float :=
  fold_left
    (fun minima i =>
       let windowLeft := windowLeft i windowM in
       let windowRight := windowRight i windowM (length spectrum) in
       <[i := ToNumber (xMinValue spectrum windowLeft windowRight)]> minima)
    (seq 0 (length spectrum)) minima.

(** The second loop: [maxima[i] = xMaxValue(minima, {fromIndex, toIndex})]. *)
Definition maxima_loop (minima : list float) (windowM : nat)
    (maxima : list float) : list float :=
  fold_left
    (fun maxima i =>
       let windowLeft := windowLeft i windowM in
       let windowRight := windowRight i windowM (length minima) in
       <[i := ToNumber (xMaxValue (JsNumber <$> minima) windowLeft windowRight)]> maxima)
    (seq 0 (length minima)) maxima.

(** The third loop:
    [baseline[i] = xMean(maxima.subarray(windowLeft, windowRight))];
    it runs over the indices of [minima]. *)
Definition baseline_loop (minima maxima : list float) (windowS : nat)
    (baseline : list float) : list float :=
  fold_left
    (fun baseline i =>
       let windowLeft := windowLeft i windowS in
       let windowRight := windowRight i windowS (length maxima) in
       <[i := xMean (subarray maxima windowLeft windowRight)]> baseline)
    (seq 0 (length minima)) baseline.

(** The three buffers once the loops have run. *)
Record Buffers : Type :=
  { minima : list float ; maxima : list float ; baseline : list float }.

Definition rollingBall_buffers (spectrum : list JsPrim) (windowM windowS : nat)
    : Buffers :=
  let numberPoints := length spectrum in
  let maxima := Float64Array numberPoints in
  let minima := Float64Array numberPoints in
  let baseline := Float64Array numberPoints in
  let minima := minima_loop spectrum windowM minima in
  let maxima := maxima_loop minima windowM maxima in
  let baseline := baseline_loop minima maxima windowS baseline in
  {| minima := minima ; maxima := maxima ; baseline := baseline |}.

Definition rollingBall (spectrum : JsValue) (options : Options)
    : Completion (list float) :=
  if negb (isAnyArray spectrum) then Throw (Error "Spectrum must be an array")
  else
    let spectrum := js_elements spectrum in
    if (length spectrum =? 0)%nat then Throw (TypeError "Spectrum must not be empty")
    else
      let numberPoints := length spectrum in
      let windowM := default (defaultWindowM numberPoints) (windowM options) in
      let windowS := default (defaultWindowS numberPoints) (windowS options) in
      Return (baseline (rollingBall_buffers spectrum windowM windowS)).

Definition numbers (xs : list float) : JsValue := JsAnyArray (JsNumber <$> xs).

(** ** The three-pass reference definition

    The specification describes the result index by index: [minima[i]] is the
    minimum of the signal over the clipped window of radius [windowM] around
    [i], [maxima[i]] the maximum of [minima] over the same window, and
    [baseline[i]] the mean of [maxima] over the clipped window of radius
    [windowS]. *)

Definition window_min (w : list float) : float :=
  match w with
  | [] => nan
  | first :: rest => fold_left (fun m v => if (v <? m)%float then v else m) rest first
  end.

Definition window_max (w : list float) : float :=
  match w with
  | [] => nan
  | first :: rest => fold_left (fun m v => if (m <? v)%float then v else m) rest first
  end.

(** The clipped window [[max(0, i - radius), min(i + radius + 1, N))] of a
    sequence, over natural numbers. *)
Definition window {A : Type} (s : list A) (radius i : nat) : list A :=
  subarray s (Nat.max 0 (i - radius)) (Nat.min (i + radius + 1) (length s)).

(** One pass: a statistic of the clipped window around every index. *)
Definition window_pass (statistic : list float -> float) (s : list float)
    (radius : nat) : list float :=
  (fun i => statistic (window s radius i)) <$> seq 0 (length s).

Definition reference_minima (signal : list float) (windowM : nat) : list float :=
  window_pass window_min signal windowM.

Definition reference_maxima (signal : list float) (windowM : nat) : list float :=
  window_pass window_max (reference_minima signal windowM) windowM.

Definition reference_baseline (signal : list float) (windowM windowS : nat)
    : list float :=
  window_pass xMean (reference_maxima signal windowM) windowS.

(** The default radius of the specification, [round(N * percent / 100)] in
    exact arithmetic; a half would go up. *)
Definition round_percent (percent : Z) (N : nat) : nat :=
  Z.to_nat ((percent * Z.of_nat N + 50) / 100).

(** What "minimum" and "maximum" of a window mean for the floating-point
    order: an element of the window that bounds every element. *)
Definition is_minimum (m : float) (w : list float) : Prop :=
  m ∈ w /\ forall y, y ∈ w -> (m <=? y)%float = true.

Definition is_maximum (m : float) (w : list float) : Prop :=
  m ∈ w /\ forall y, y ∈ w -> (y <=? m)%float = true.

(** A signal free of NaN. *)
Definition nan_free (xs : list float) : Prop :=
  Forall (fun x => is_nan x = false) xs.

(** ** The windows the helpers scan

    [rollingBall] passes [windowRight], an exclusive bound, as [toIndex].
    Around index [i] the minimum and maximum helpers therefore scan the
    indices from [max(0, i - radius)] to [min(i + radius + 1, N - 1)], both
    included: one index further to the right than the window of the
    specification. *)

(** The elements at distance at most [left] before [i] and at most [right]
    after it. *)
Definition reach {A : Type} (s : list A) (left right i : nat) : list A :=
  subarray s (Nat.max 0 (i - left)) (Nat.min (i + right + 1) (length s)).

Definition scanned {A : Type} (s : list A) (radius i : nat) : list A :=
  reach s radius (radius + 1) i.

Definition reach_pass (statistic : list float -> float) (s : list float)
    (left right : nat) : list float :=
  (fun i => statistic (reach s left right i)) <$> seq 0 (length s).

Definition scan_pass (statistic : list float -> float) (s : list float)
    (radius : nat) : list float :=
  reach_pass statistic s radius (radius + 1).

(** The buffers of [rollingBall] on a numeric signal, index by index. *)
Definition scanned_minima (signal : list float) (windowM : nat) : list float :=
  scan_pass window_min signal windowM.

Definition scanned_maxima (signal : list float) (windowM : nat) : list float :=
  scan_pass window_max (scanned_minima signal windowM) windowM.

Definition computed_baseline (signal : list float) (windowM windowS : nat)
    : list float :=
  window_pass xMean (scanned_maxima signal windowM) windowS.

(** * Properties *)

(** ** The floating-point order

    Comparisons of [spec_float]s are read through a key in [Z * Z * Z]
    ordered lexicographically. *)

Definition SFkey (x : spec_float) : Z * Z * Z :=
  match x with
  | S754_nan => (0, 0, 0)
  | S754_zero _ => (0, 0, 0)
  | S754_infinity false => (2, 0, 0)
  | S754_infinity true => (-2, 0, 0)
  | S754_finite false m e => (1, e, Zpos m)
  | S754_finite true m e => (-1, - e, Zneg m)
  end.

Definition key_lt (k k' : Z * Z * Z) : Prop :=
  let '(a, b, c) := k in
  let '(a', b', c') := k' in
  a < a' \/ (a = a' /\ (b < b' \/ (b = b' /\ c < c'))).

Lemma SFcompare_key (x y : spec_float) :
  x <> S754_nan -> y <> S754_nan ->
  match SFcompare x y with
  | Some Lt => key_lt (SFkey x) (SFkey y)
  | Some Eq => SFkey x = SFkey y
  | Some Gt => key_lt (SFkey y) (SFkey x)
  | None => False
  end.
Proof.
  intros Hx Hy.
  destruct x as [sx|sx| |sx mx ex], y as [sy|sy| |sy my ey]; try congruence;
    try destruct sx; try destruct sy; cbn; try lia; try reflexivity.
  all: destruct (Z.compare_spec ex ey) as [He|He|He]; cbn; try lia;
       change (Pos.compare_cont Eq mx my) with (Pos.compare mx my);
       destruct (Pos.compare_spec mx my) as [Hm|Hm|Hm]; cbn; subst;
       try reflexivity; lia.
Qed.

Lemma SFcompare_nan_l (y : spec_float) : SFcompare S754_nan y = None.
Proof. reflexivity. Qed.

Lemma SFcompare_nan_r (x : spec_float) : SFcompare x S754_nan = None.
Proof. now destruct x. Qed.

Ltac key_cases :=
  unfold key_lt in *;
  repeat match goal with
         | H : context [SFkey ?x] |- _ =>
             let a := fresh "a" in let b := fresh "b" in let c := fresh "c" in
             destruct (SFkey x) as [[a b] c]
         end;
  repeat match goal with
         | H : (_, _, _) = (_, _, _) |- _ => injection H as ? ? ?
         end;
  try discriminate; try reflexivity; try lia.

Lemma is_nan_spec (x : float) : is_nan x = false <-> Prim2SF x <> S754_nan.
Proof.
  unfold is_nan. rewrite FloatAxioms.eqb_spec. unfold SFeqb. split.
  - intros H E. rewrite E in H. discriminate H.
  - intros H. pose proof (SFcompare_key _ _ H H) as K.
    destruct (SFcompare (Prim2SF x) (Prim2SF x)) as [[]|]; key_cases.
Qed.

Lemma ltb_irrefl (x : float) : (x <? x)%float = false.
Proof.
  rewrite FloatAxioms.ltb_spec. unfold SFltb.
  destruct (is_nan x) eqn:E.
  - assert (Prim2SF x = S754_nan) as ->; [|reflexivity].
    destruct (Prim2SF x) eqn:F; try reflexivity;
      (assert (is_nan x = false) by (apply is_nan_spec; congruence); congruence).
  - apply is_nan_spec in E. pose proof (SFcompare_key _ _ E E) as K.
    destruct (SFcompare (Prim2SF x) (Prim2SF x)) as [[]|]; key_cases.
Qed.

Lemma leb_refl (x : float) : is_nan x = false -> (x <=? x)%float = true.
Proof.
  intros E. rewrite FloatAxioms.leb_spec. unfold SFleb.
  apply is_nan_spec in E. pose proof (SFcompare_key _ _ E E) as K.
  destruct (SFcompare (Prim2SF x) (Prim2SF x)) as [[]|]; key_cases.
Qed.

Lemma ltb_leb (x y : float) : (x <? y)%float = true -> (x <=? y)%float = true.
Proof.
  rewrite FloatAxioms.ltb_spec, FloatAxioms.leb_spec. unfold SFltb, SFleb.
  now destruct (SFcompare (Prim2SF x) (Prim2SF y)) as [[]|].
Qed.

Lemma leb_total (x y : float) :
  is_nan x = false -> is_nan y = false ->
  (y <? x)%float = false -> (x <=? y)%float = true.
Proof.
  intros Ex Ey. rewrite FloatAxioms.ltb_spec, FloatAxioms.leb_spec. unfold SFltb, SFleb.
  apply is_nan_spec in Ex, Ey.
  pose proof (SFcompare_key _ _ Ex Ey) as K1.
  pose proof (SFcompare_key _ _ Ey Ex) as K2.
  destruct (SFcompare (Prim2SF x) (Prim2SF y)) as [[]|],
           (SFcompare (Prim2SF y) (Prim2SF x)) as [[]|]; key_cases.
Qed.

Lemma leb_not_nan (x y : float) :
  (x <=? y)%float = true -> is_nan x = false /\ is_nan y = false.
Proof.
  rewrite FloatAxioms.leb_spec. unfold SFleb. intros H.
  split; apply is_nan_spec; intros E; rewrite E in H;
    [rewrite SFcompare_nan_l in H | rewrite SFcompare_nan_r in H]; discriminate.
Qed.

Lemma leb_trans (x y z : float) :
  (x <=? y)%float = true -> (y <=? z)%float = true -> (x <=? z)%float = true.
Proof.
  intros Hxy Hyz.
  destruct (leb_not_nan _ _ Hxy) as [Ex Ey].
  destruct (leb_not_nan _ _ Hyz) as [_ Ez].
  revert Hxy Hyz. rewrite !FloatAxioms.leb_spec. unfold SFleb.
  apply is_nan_spec in Ex, Ey, Ez.
  pose proof (SFcompare_key _ _ Ex Ey) as K1.
  pose proof (SFcompare_key _ _ Ey Ez) as K2.
  pose proof (SFcompare_key _ _ Ex Ez) as K3.
  destruct (SFcompare (Prim2SF x) (Prim2SF y)) as [[]|],
           (SFcompare (Prim2SF y) (Prim2SF z)) as [[]|],
           (SFcompare (Prim2SF x) (Prim2SF z)) as [[]|]; intros; key_cases.
Qed.

(** ** Index loops over a typed array *)

Lemma fill_loop_prefix {A : Type} (f : nat -> A) (k : nat) (init : list A) :
  (k <= length init)%nat ->
  fold_left (fun acc i => <[i := f i]> acc) (seq 0 k) init
  = (f <$> seq 0 k) ++ drop k init.
Proof.
  induction k as [|k IH]; intros Hk.
  - reflexivity.
  - rewrite seq_S, fold_left_app, IH by lia. cbn [fold_left Nat.add].
    rewrite fmap_app. cbn [fmap list_fmap].
    destruct (lookup_lt_is_Some_2 init k ltac:(lia)) as [y Hy].
    rewrite (drop_S _ _ _ Hy).
    rewrite insert_app_r_alt by (rewrite length_fmap, length_seq; lia).
    rewrite length_fmap, length_seq, Nat.sub_diag. cbn.
    now rewrite <- app_assoc.
Qed.

Lemma fill_loop {A : Type} (f : nat -> A) (n : nat) (init : list A) :
  length init = n ->
  fold_left (fun acc i => <[i := f i]> acc) (seq 0 n) init = f <$> seq 0 n.
Proof.
  intros Hn. rewrite fill_loop_prefix by lia.
  rewrite drop_ge by lia. apply app_nil_r.
Qed.

Lemma length_Float64Array (n : nat) : length (Float64Array n) = n.
Proof. apply length_replicate. Qed.

(** The window bounds of the source, computed on integers, are those of the
    reference window. *)
Lemma windowLeft_nat (i r : nat) : windowLeft i r = Nat.max 0 (i - r).
Proof. unfold windowLeft. lia. Qed.

Lemma windowRight_nat (i r n : nat) : windowRight i r n = Nat.min (i + r + 1) n.
Proof. unfold windowRight. lia. Qed.

Lemma subarray_window {A : Type} (s : list A) (r i : nat) :
  subarray s (windowLeft i r) (windowRight i r (length s)) = window s r i.
Proof. unfold window. now rewrite windowLeft_nat, windowRight_nat. Qed.

Lemma minima_loop_eq (spectrum : list JsPrim) (M : nat) :
  minima_loop spectrum M (Float64Array (length spectrum))
  = (fun i => ToNumber (xMinValue spectrum (windowLeft i M)
                          (windowRight i M (length spectrum))))
      <$> seq 0 (length spectrum).
Proof. unfold minima_loop. apply fill_loop, length_Float64Array. Qed.

Lemma maxima_loop_eq (mins : list float) (M : nat) :
  maxima_loop mins M (Float64Array (length mins))
  = (fun i => ToNumber (xMaxValue (JsNumber <$> mins) (windowLeft i M)
                          (windowRight i M (length mins))))
      <$> seq 0 (length mins).
Proof. unfold maxima_loop. apply fill_loop, length_Float64Array. Qed.

Lemma baseline_loop_eq (mins maxs : list float) (S : nat) :
  baseline_loop mins maxs S (Float64Array (length mins))
  = (fun i => xMean (window maxs S i)) <$> seq 0 (length mins).
Proof.
  unfold baseline_loop. rewrite fill_loop by apply length_Float64Array.
  apply list_fmap_ext. intros i j _. now rewrite subarray_window.
Qed.

Lemma length_minima_loop (spectrum : list JsPrim) (M : nat) :
  length (minima_loop spectrum M (Float64Array (length spectrum))) = length spectrum.
Proof. now rewrite minima_loop_eq, length_fmap, length_seq. Qed.

(** The buffers, index by index. *)
Lemma rollingBall_buffers_eq (spectrum : list JsPrim) (M S : nat) :
  let mins := (fun i => ToNumber (xMinValue spectrum (windowLeft i M)
                                   (windowRight i M (length spectrum))))
                <$> seq 0 (length spectrum) in
  let maxs := (fun i => ToNumber (xMaxValue (JsNumber <$> mins) (windowLeft i M)
                                   (windowRight i M (length mins))))
                <$> seq 0 (length mins) in
  rollingBall_buffers spectrum M S
  = {| minima := mins ; maxima := maxs ;
       baseline := (fun i => xMean (window maxs S i)) <$> seq 0 (length mins) |}.
Proof.
  intros mins maxs. unfold rollingBall_buffers.
  rewrite minima_loop_eq. fold mins.
  assert (length mins = length spectrum) as Hl
      by (unfold mins; now rewrite length_fmap, length_seq).
  rewrite <- Hl. rewrite maxima_loop_eq. fold maxs.
  rewrite baseline_loop_eq. reflexivity.
Qed.

Lemma length_buffers (spectrum : list JsPrim) (M S : nat) :
  let b := rollingBall_buffers spectrum M S in
  length (minima b) = length spectrum /\
  length (maxima b) = length spectrum /\
  length (baseline b) = length spectrum.
Proof.
  cbv zeta. rewrite rollingBall_buffers_eq. cbn [minima maxima baseline].
  now rewrite !length_fmap, !length_seq.
Qed.

(** ** Sequences given index by index *)

Lemma lookup_fmap_seq {A : Type} (f : nat -> A) (n i : nat) :
  (i < n)%nat -> (f <$> seq 0 n) !! i = Some (f i).
Proof. intros Hi. rewrite list_lookup_fmap, lookup_seq_lt by assumption. reflexivity. Qed.

Lemma fmap_seq_ext {A : Type} (f g : nat -> A) (n : nat) :
  (forall i, (i < n)%nat -> f i = g i) -> f <$> seq 0 n = g <$> seq 0 n.
Proof.
  intros H. apply list_fmap_ext. intros j i Hi.
  apply lookup_seq in Hi as [-> Hj]. now apply H.
Qed.

Lemma fmap_seq_const {A : Type} (c : A) (n : nat) :
  (fun _ => c) <$> seq 0 n = replicate n c.
Proof.
  apply list_eq. intros i. destruct (decide (i < n)%nat) as [Hi|Hi].
  - now rewrite lookup_fmap_seq, lookup_replicate_2.
  - rewrite (lookup_ge_None_2 (replicate n c)) by (rewrite length_replicate; lia).
    apply lookup_ge_None_2. rewrite length_fmap, length_seq. lia.
Qed.

Lemma fmap_seq_self {A : Type} (g : nat -> A) (l : list A) :
  (forall i x, l !! i = Some x -> g i = x) -> g <$> seq 0 (length l) = l.
Proof.
  intros H. apply list_eq. intros i. destruct (l !! i) as [x|] eqn:E.
  - rewrite lookup_fmap_seq by (now apply lookup_lt_Some in E). f_equal. now apply H.
  - apply lookup_ge_None_2. rewrite length_fmap, length_seq.
    now apply lookup_ge_None_1.
Qed.

(** ** Elements of a window *)

Lemma lookup_subarray {A : Type} (l : list A) (a b j : nat) :
  subarray l a b !! j = if decide (j < b - a)%nat then l !! (a + j)%nat else None.
Proof. unfold subarray. rewrite lookup_take. now rewrite lookup_drop. Qed.

Lemma elem_of_subarray {A : Type} (l : list A) (a b : nat) (x : A) :
  x ∈ subarray l a b <-> exists j, (a <= j < b)%nat /\ l !! j = Some x.
Proof.
  rewrite list_elem_of_lookup. split.
  - intros [k Hk]. rewrite lookup_subarray in Hk.
    destruct (decide (k < b - a)%nat); [|discriminate].
    exists (a + k)%nat. split; [lia|assumption].
  - intros [j [Hj Hx]]. exists (j - a)%nat. rewrite lookup_subarray.
    destruct (decide (j - a < b - a)%nat); [|lia].
    now replace (a + (j - a))%nat with j by lia.
Qed.

Lemma subarray_cons {A : Type} (l : list A) (a b : nat) (x : A) :
  l !! a = Some x -> (a < b)%nat -> subarray l a b = x :: subarray l (a + 1) b.
Proof.
  intros Hx Hab. unfold subarray. rewrite (drop_S _ _ _ Hx).
  replace (b - a)%nat with (S (b - (a + 1))) by lia.
  cbn [take]. now replace (a + 1)%nat with (S a) by lia.
Qed.

Lemma elem_of_window {A : Type} (s : list A) (r i : nat) (x : A) :
  x ∈ window s r i <->
  exists j, (i - r <= j < Nat.min (i + r + 1) (length s))%nat /\ s !! j = Some x.
Proof. unfold window. now rewrite elem_of_subarray. Qed.

Lemma elem_of_window_centre {A : Type} (s : list A) (r i : nat) (x : A) :
  s !! i = Some x -> x ∈ window s r i.
Proof.
  intros Hx. apply elem_of_window. exists i. split; [|assumption].
  apply lookup_lt_Some in Hx. lia.
Qed.

Lemma elem_of_window_inv {A : Type} (s : list A) (r i : nat) (x : A) :
  x ∈ window s r i -> x ∈ s.
Proof.
  intros H. apply elem_of_window in H as [j [_ Hj]].
  now apply list_elem_of_lookup_2 in Hj.
Qed.

Lemma window_nonempty {A : Type} (s : list A) (r i : nat) :
  (i < length s)%nat -> window s r i <> [].
Proof.
  intros Hi E. destruct (lookup_lt_is_Some_2 s i Hi) as [x Hx].
  apply (elem_of_window_centre s r) in Hx. rewrite E in Hx.
  now apply not_elem_of_nil in Hx.
Qed.

(** A window of radius 0 is the point itself. *)
Lemma window_radius_0 {A : Type} (s : list A) (i : nat) (x : A) :
  s !! i = Some x -> window s 0 i = [x].
Proof.
  intros Hx. pose proof (lookup_lt_Some _ _ _ Hx) as Hi.
  apply list_eq. intros j. unfold window. rewrite lookup_subarray.
  destruct (decide (j < Nat.min (i + 0 + 1) (length s) - Nat.max 0 (i - 0))%nat) as [Hj|Hj].
  - assert (j = 0)%nat as -> by lia.
    now replace (Nat.max 0 (i - 0) + 0)%nat with i by lia.
  - destruct j; [lia|reflexivity].
Qed.

(** A radius reaching both ends makes the window the whole sequence. *)
Lemma window_whole {A : Type} (s : list A) (r i : nat) :
  (i < length s)%nat -> (length s - 1 <= r)%nat -> window s r i = s.
Proof.
  intros Hi Hr. unfold window, subarray.
  replace (Nat.max 0 (i - r)) with 0%nat by lia.
  replace (Nat.min (i + r + 1) (length s)) with (length s) by lia.
  rewrite drop_0. apply take_ge. lia.
Qed.

(** The windows of a constant sequence are constant. *)
Lemma window_replicate {A : Type} (c : A) (n r i : nat) :
  window (replicate n c) r i
  = replicate (Nat.min (i + r + 1) n - Nat.max 0 (i - r)) c.
Proof.
  unfold window, subarray. rewrite length_replicate.
  rewrite drop_replicate, take_replicate. f_equal. lia.
Qed.

(** The same facts for a window with its own reach on each side. *)
Lemma window_reach {A : Type} (s : list A) (r i : nat) : window s r i = reach s r r i.
Proof. reflexivity. Qed.

Lemma elem_of_reach {A : Type} (s : list A) (a b i : nat) (x : A) :
  x ∈ reach s a b i <->
  exists j, (i - a <= j < Nat.min (i + b + 1) (length s))%nat /\ s !! j = Some x.
Proof. unfold reach. now rewrite elem_of_subarray. Qed.

Lemma elem_of_reach_centre {A : Type} (s : list A) (a b i : nat) (x : A) :
  s !! i = Some x -> x ∈ reach s a b i.
Proof.
  intros Hx. apply elem_of_reach. exists i. split; [|assumption].
  apply lookup_lt_Some in Hx. lia.
Qed.

Lemma elem_of_reach_inv {A : Type} (s : list A) (a b i : nat) (x : A) :
  x ∈ reach s a b i -> x ∈ s.
Proof.
  intros H. apply elem_of_reach in H as [j [_ Hj]].
  now apply list_elem_of_lookup_2 in Hj.
Qed.

Lemma reach_nonempty {A : Type} (s : list A) (a b i : nat) :
  (i < length s)%nat -> reach s a b i <> [].
Proof.
  intros Hi E. destruct (lookup_lt_is_Some_2 s i Hi) as [x Hx].
  apply (elem_of_reach_centre s a b) in Hx. rewrite E in Hx.
  now apply not_elem_of_nil in Hx.
Qed.

Lemma reach_whole {A : Type} (s : list A) (a b i : nat) :
  (i < length s)%nat -> (length s - 1 <= a)%nat -> (length s - 1 <= b)%nat ->
  reach s a b i = s.
Proof.
  intros Hi Ha Hb. unfold reach, subarray.
  replace (Nat.max 0 (i - a)) with 0%nat by lia.
  replace (Nat.min (i + b + 1) (length s)) with (length s) by lia.
  rewrite drop_0. apply take_ge. lia.
Qed.

Lemma reach_replicate {A : Type} (c : A) (n a b i : nat) :
  reach (replicate n c) a b i
  = replicate (Nat.min (i + b + 1) n - Nat.max 0 (i - a)) c.
Proof.
  unfold reach, subarray. rewrite length_replicate.
  rewrite drop_replicate, take_replicate. f_equal. lia.
Qed.

Lemma reach_wider {A : Type} (s : list A) (a b a' b' i : nat) (x : A) :
  (a <= a')%nat -> (b <= b')%nat -> x ∈ reach s a b i -> x ∈ reach s a' b' i.
Proof.
  intros Ha Hb H. apply elem_of_reach in H as (j & Hj & Hx).
  apply elem_of_reach. exists j. split; [lia|assumption].
Qed.

(** ** Scans of numeric windows *)

Lemma subarray_fmap {A B : Type} (f : A -> B) (l : list A) (a b : nat) :
  subarray (f <$> l) a b = f <$> subarray l a b.
Proof. unfold subarray. now rewrite fmap_take, fmap_drop. Qed.

Lemma min_scan_numbers (rest : list float) (first : float) :
  fold_left (fun minValue v => if js_lt v minValue then v else minValue)
    (JsNumber <$> rest) (JsNumber first)
  = JsNumber (fold_left (fun m v => if (v <? m)%float then v else m) rest first).
Proof.
  revert first. induction rest as [|x rest IH]; intros first; [reflexivity|].
  cbn [fmap list_fmap fold_left].
  change (js_lt (JsNumber x) (JsNumber first)) with (x <? first)%float.
  destruct (x <? first)%float; apply IH.
Qed.

Lemma max_scan_numbers (rest : list float) (first : float) :
  fold_left (fun maxValue v => if js_lt maxValue v then v else maxValue)
    (JsNumber <$> rest) (JsNumber first)
  = JsNumber (fold_left (fun m v => if (m <? v)%float then v else m) rest first).
Proof.
  revert first. induction rest as [|x rest IH]; intros first; [reflexivity|].
  cbn [fmap list_fmap fold_left].
  change (js_lt (JsNumber first) (JsNumber x)) with (first <? x)%float.
  destruct (first <? x)%float; apply IH.
Qed.

(** The range a helper scans when [rollingBall] calls it at index [i]. *)
Lemma helper_range (i r n : nat) :
  (i < n)%nat ->
  clamp_index n (windowLeft i r) = Nat.max 0 (i - r) /\
  (clamp_index n (windowRight i r n) + 1)%nat = Nat.min (i + (r + 1) + 1) n.
Proof.
  intros Hi. rewrite windowLeft_nat, windowRight_nat. unfold clamp_index.
  destruct (Nat.leb_spec n (Nat.max 0 (i - r))),
           (Nat.leb_spec n (Nat.min (i + r + 1) n)); lia.
Qed.

Lemma scanned_cons (xs : list float) (r i : nat) :
  (i < length xs)%nat ->
  exists x, xs !! Nat.max 0 (i - r) = Some x /\
    scanned xs r i
    = x :: subarray xs (Nat.max 0 (i - r) + 1) (Nat.min (i + (r + 1) + 1) (length xs)).
Proof.
  intros Hi. destruct (lookup_lt_is_Some_2 xs (Nat.max 0 (i - r)) ltac:(lia)) as [x Hx].
  exists x. split; [assumption|]. unfold scanned, reach.
  apply subarray_cons; [assumption|lia].
Qed.

Lemma xMinValue_numbers (xs : list float) (r i : nat) :
  (i < length xs)%nat ->
  ToNumber (xMinValue (JsNumber <$> xs) (windowLeft i r) (windowRight i r (length xs)))
  = window_min (scanned xs r i).
Proof.
  intros Hi. unfold xMinValue. rewrite length_fmap.
  destruct (helper_range i r (length xs) Hi) as [-> ->].
  destruct (scanned_cons xs r i Hi) as (x & Hx & ->).
  replace (js_get (JsNumber <$> xs) (Nat.max 0 (i - r))) with (JsNumber x)
    by (unfold js_get; now rewrite list_lookup_fmap, Hx).
  rewrite subarray_fmap, min_scan_numbers. reflexivity.
Qed.

Lemma xMaxValue_numbers (xs : list float) (r i : nat) :
  (i < length xs)%nat ->
  ToNumber (xMaxValue (JsNumber <$> xs) (windowLeft i r) (windowRight i r (length xs)))
  = window_max (scanned xs r i).
Proof.
  intros Hi. unfold xMaxValue. rewrite length_fmap.
  destruct (helper_range i r (length xs) Hi) as [-> ->].
  destruct (scanned_cons xs r i Hi) as (x & Hx & ->).
  replace (js_get (JsNumber <$> xs) (Nat.max 0 (i - r))) with (JsNumber x)
    by (unfold js_get; now rewrite list_lookup_fmap, Hx).
  rewrite subarray_fmap, max_scan_numbers. reflexivity.
Qed.

Lemma length_window_pass (f : list float -> float) (s : list float) (r : nat) :
  length (window_pass f s r) = length s.
Proof. unfold window_pass. now rewrite length_fmap, length_seq. Qed.

Lemma length_reference_minima (xs : list float) (M : nat) :
  length (reference_minima xs M) = length xs.
Proof. apply length_window_pass. Qed.

Lemma length_reference_maxima (xs : list float) (M : nat) :
  length (reference_maxima xs M) = length xs.
Proof.
  unfold reference_maxima. rewrite length_window_pass. apply length_reference_minima.
Qed.

Lemma length_reach_pass (f : list float -> float) (s : list float) (a b : nat) :
  length (reach_pass f s a b) = length s.
Proof. unfold reach_pass. now rewrite length_fmap, length_seq. Qed.

Lemma length_scanned_minima (xs : list float) (M : nat) :
  length (scanned_minima xs M) = length xs.
Proof. apply length_reach_pass. Qed.

Lemma length_scanned_maxima (xs : list float) (M : nat) :
  length (scanned_maxima xs M) = length xs.
Proof.
  unfold scanned_maxima, scan_pass. rewrite length_reach_pass.
  apply length_scanned_minima.
Qed.

(** On a numeric signal the loops compute, index by index, the minimum and
    the maximum over the scanned windows and the mean over the clipped
    window. *)
Lemma rollingBall_buffers_numbers (xs : list float) (M S : nat) :
  rollingBall_buffers (JsNumber <$> xs) M S
  = {| minima := scanned_minima xs M ;
       maxima := scanned_maxima xs M ;
       baseline := computed_baseline xs M S |}.
Proof.
  rewrite rollingBall_buffers_eq. cbv zeta.
  rewrite !length_fmap, !length_seq.
  assert ((fun i => ToNumber (xMinValue (JsNumber <$> xs) (windowLeft i M)
                                (windowRight i M (length xs))))
            <$> seq 0 (length xs) = scanned_minima xs M) as ->.
  { unfold scanned_minima, scan_pass, reach_pass. apply fmap_seq_ext.
    intros i Hi. now apply xMinValue_numbers. }
  assert ((fun i => ToNumber (xMaxValue (JsNumber <$> scanned_minima xs M)
                                (windowLeft i M) (windowRight i M (length xs))))
            <$> seq 0 (length xs) = scanned_maxima xs M) as ->.
  { unfold scanned_maxima, scan_pass, reach_pass. rewrite length_scanned_minima.
    apply fmap_seq_ext. intros i Hi.
    rewrite <- (length_scanned_minima xs M) at 1.
    apply xMaxValue_numbers. now rewrite length_scanned_minima. }
  unfold computed_baseline, window_pass. now rewrite length_scanned_maxima.
Qed.

(** ** Minimum and maximum scans *)

Lemma min_scan_step (first x : float) :
  is_nan first = false -> is_nan x = false ->
  let m := if (x <? first)%float then x else first in
  is_nan m = false /\ (m <=? first)%float = true /\ (m <=? x)%float = true.
Proof.
  intros Hf Hx. cbv zeta. destruct (x <? first)%float eqn:E.
  - auto using ltb_leb, leb_refl.
  - auto using leb_total, leb_refl.
Qed.

Lemma max_scan_step (first x : float) :
  is_nan first = false -> is_nan x = false ->
  let m := if (first <? x)%float then x else first in
  is_nan m = false /\ (first <=? m)%float = true /\ (x <=? m)%float = true.
Proof.
  intros Hf Hx. cbv zeta. destruct (first <? x)%float eqn:E.
  - auto using ltb_leb, leb_refl.
  - auto using leb_total, leb_refl.
Qed.

Lemma min_scan_elem (rest : list float) (first : float) :
  fold_left (fun m v => if (v <? m)%float then v else m) rest first ∈ first :: rest.
Proof.
  revert first. induction rest as [|x rest IH]; intros first; cbn [fold_left].
  - apply list_elem_of_here.
  - specialize (IH (if (x <? first)%float then x else first)).
    apply elem_of_cons in IH as [-> | IH].
    + destruct (x <? first)%float; [apply list_elem_of_further|]; apply list_elem_of_here.
    + now do 2 apply list_elem_of_further.
Qed.

Lemma max_scan_elem (rest : list float) (first : float) :
  fold_left (fun m v => if (m <? v)%float then v else m) rest first ∈ first :: rest.
Proof.
  revert first. induction rest as [|x rest IH]; intros first; cbn [fold_left].
  - apply list_elem_of_here.
  - specialize (IH (if (first <? x)%float then x else first)).
    apply elem_of_cons in IH as [-> | IH].
    + destruct (first <? x)%float; [apply list_elem_of_further|]; apply list_elem_of_here.
    + now do 2 apply list_elem_of_further.
Qed.

Lemma min_scan_lower (rest : list float) (first : float) :
  is_nan first = false -> nan_free rest ->
  forall y, y ∈ first :: rest ->
    (fold_left (fun m v => if (v <? m)%float then v else m) rest first <=? y)%float = true.
Proof.
  revert first. induction rest as [|x rest IH]; intros first Hf Hr y Hy; cbn [fold_left].
  - apply list_elem_of_singleton in Hy as ->. now apply leb_refl.
  - apply Forall_cons in Hr as [Hx Hr].
    destruct (min_scan_step first x Hf Hx) as (Hm & Hmf & Hmx).
    set (m := if (x <? first)%float then x else first) in *.
    apply elem_of_cons in Hy as [-> | Hy].
    + eapply leb_trans; [apply (IH m Hm Hr m), list_elem_of_here | exact Hmf].
    + apply elem_of_cons in Hy as [-> | Hy].
      * eapply leb_trans; [apply (IH m Hm Hr m), list_elem_of_here | exact Hmx].
      * apply (IH m Hm Hr). now apply list_elem_of_further.
Qed.

Lemma max_scan_upper (rest : list float) (first : float) :
  is_nan first = false -> nan_free rest ->
  forall y, y ∈ first :: rest ->
    (y <=? fold_left (fun m v => if (m <? v)%float then v else m) rest first)%float = true.
Proof.
  revert first. induction rest as [|x rest IH]; intros first Hf Hr y Hy; cbn [fold_left].
  - apply list_elem_of_singleton in Hy as ->. now apply leb_refl.
  - apply Forall_cons in Hr as [Hx Hr].
    destruct (max_scan_step first x Hf Hx) as (Hm & Hmf & Hmx).
    set (m := if (first <? x)%float then x else first) in *.
    apply elem_of_cons in Hy as [-> | Hy].
    + eapply leb_trans; [exact Hmf | apply (IH m Hm Hr m), list_elem_of_here].
    + apply elem_of_cons in Hy as [-> | Hy].
      * eapply leb_trans; [exact Hmx | apply (IH m Hm Hr m), list_elem_of_here].
      * apply (IH m Hm Hr). now apply list_elem_of_further.
Qed.

Lemma window_min_elem (w : list float) : w <> [] -> window_min w ∈ w.
Proof. destruct w; [congruence|intros _; apply min_scan_elem]. Qed.

Lemma window_max_elem (w : list float) : w <> [] -> window_max w ∈ w.
Proof. destruct w; [congruence|intros _; apply max_scan_elem]. Qed.

Lemma window_min_is_minimum (w : list float) :
  w <> [] -> nan_free w -> is_minimum (window_min w) w.
Proof.
  intros Hw Hn. split; [now apply window_min_elem|].
  destruct w as [|first rest]; [congruence|].
  apply Forall_cons in Hn as [Hf Hr]. now apply min_scan_lower.
Qed.

Lemma window_max_is_maximum (w : list float) :
  w <> [] -> nan_free w -> is_maximum (window_max w) w.
Proof.
  intros Hw Hn. split; [now apply window_max_elem|].
  destruct w as [|first rest]; [congruence|].
  apply Forall_cons in Hn as [Hf Hr]. now apply max_scan_upper.
Qed.

(** On a constant window both scans return the constant, NaN included. *)
Lemma window_min_replicate (c : float) (n : nat) :
  (0 < n)%nat -> window_min (replicate n c) = c.
Proof.
  destruct n as [|n]; [lia|intros _]. cbn [replicate window_min].
  induction n as [|n IH]; [reflexivity|].
  cbn [replicate fold_left]. now rewrite ltb_irrefl.
Qed.

Lemma window_max_replicate (c : float) (n : nat) :
  (0 < n)%nat -> window_max (replicate n c) = c.
Proof.
  destruct n as [|n]; [lia|intros _]. cbn [replicate window_max].
  induction n as [|n IH]; [reflexivity|].
  cbn [replicate fold_left]. now rewrite ltb_irrefl.
Qed.

(** ** Division by one is exact

    [xMean] of a one-element array divides the element by [1]. *)

Ltac stdlib_names :=
  change IntDef.Z.add with Z.add in *;
  change IntDef.Z.sub with Z.sub in *;
  change IntDef.Z.mul with Z.mul in *;
  change IntDef.Z.opp with Z.opp in *;
  change IntDef.Z.min with Z.min in *;
  change IntDef.Z.max with Z.max in *;
  change IntDef.Z.leb with Z.leb in *;
  change IntDef.Z.eqb with Z.eqb in *;
  change IntDef.Z.even with Z.even in *;
  change IntDef.Z.shiftl with Z.shiftl in *;
  change IntDef.Z.div_eucl with Z.div_eucl in *;
  change PosDef.Pos.succ with Pos.succ in *.

Lemma binary_round_aux_exact (sx : bool) (m : positive) (e : Z) :
  bounded prec emax m e = true ->
  binary_round_aux prec emax sx (Zpos m) e loc_Exact = S754_finite sx m e.
Proof.
  intros Hb. unfold bounded, canonical_mantissa in Hb.
  apply andb_true_iff in Hb as [Hc He]. apply Z.eqb_eq in Hc.
  unfold binary_round_aux, shr_fexp. cbn [Zdigits2 shr_record_of_loc].
  rewrite Hc, Z.sub_diag. cbn [shr shr_m loc_of_shr_record round_nearest_even Zdigits2].
  rewrite Hc, Z.sub_diag. cbn [shr shr_m]. now rewrite He.
Qed.

Lemma binary_round_aux_exact_double (sx : bool) (m : positive) (e : Z) :
  bounded prec emax m e = true ->
  Zpos (digits2_pos m) = prec ->
  binary_round_aux prec emax sx (Zpos m~0) (e - 1) loc_Exact = S754_finite sx m e.
Proof.
  intros Hb Hd. unfold bounded, canonical_mantissa in Hb.
  apply andb_true_iff in Hb as [Hc He]. apply Z.eqb_eq in Hc.
  unfold binary_round_aux, shr_fexp. cbn [Zdigits2 shr_record_of_loc digits2_pos].
  stdlib_names. rewrite Pos2Z.inj_succ.
  replace (Z.succ (Zpos (digits2_pos m)) + (e - 1)) with (Zpos (digits2_pos m) + e) by lia.
  rewrite Hc. replace (e - (e - 1)) with 1 by lia.
  cbn [shr SpecFloat.iter_pos shr_1 orb shr_m loc_of_shr_record round_nearest_even Zdigits2].
  replace (e - 1 + 1) with e by lia.
  rewrite Hc, Z.sub_diag. cbn [shr shr_m]. now rewrite He.
Qed.

Lemma div_eucl_exact (a b : Z) : 0 < b -> Z.div_eucl (b * a) b = (a, 0).
Proof.
  intros Hb. pose proof (Z_div_mod (b * a) b ltac:(lia)) as H.
  destruct (Z.div_eucl (b * a) b) as [q r]. destruct H as [H1 H2].
  assert (q = a) by nia. subst q. f_equal. lia.
Qed.

Lemma SFdiv_one (s : bool) (m : positive) (e : Z) :
  bounded prec emax m e = true ->
  SFdiv prec emax (S754_finite s m e) (S754_finite false 4503599627370496 (-52))
  = S754_finite s m e.
Proof.
  intros Hb. pose proof Hb as Hb'. unfold bounded, canonical_mantissa in Hb'.
  apply andb_true_iff in Hb' as [Hc He]. apply Z.eqb_eq in Hc. apply Z.leb_le in He.
  unfold SFdiv, SFdiv_core_binary. cbn [Zdigits2].
  change (Zpos (digits2_pos 4503599627370496)) with 53.
  rewrite xorb_false_r.
  assert (0 < Zpos (digits2_pos m)) as Hd by lia.
  unfold fexp, SpecFloat.emin, prec, emax in Hc |- *. stdlib_names.
  destruct (Z_le_gt_dec (-1073) e) as [Hn|Hn].
  - (* a normal number above the least exponent: the quotient has one more bit *)
    assert (Zpos (digits2_pos m) = 53) as Hd53 by lia.
    rewrite Hd53.
    replace (Z.min (Z.max (53 + e - (53 + -52) - 53) (3 - 1024 - 53)) (e - -52))
      with (e - 1) by lia.
    replace (e - -52 - (e - 1)) with 53 by lia.
    change (Z.shiftl (Zpos m) 53) with (4503599627370496 * Zpos m~0).
    rewrite div_eucl_exact by lia.
    change (new_location 4503599627370496 0) with loc_Exact.
    now apply binary_round_aux_exact_double.
  - replace (Z.min (Z.max (Zpos (digits2_pos m) + e - (53 + -52) - 53) (3 - 1024 - 53)) (e - -52))
      with e by lia.
    replace (e - -52 - e) with 52 by lia.
    change (Z.shiftl (Zpos m) 52) with (4503599627370496 * Zpos m).
    rewrite div_eucl_exact by lia.
    change (new_location 4503599627370496 0) with loc_Exact.
    now apply binary_round_aux_exact.
Qed.

Lemma div_one (x : float) : (x / 1)%float = x.
Proof.
  apply Prim2SF_inj. rewrite div_spec.
  assert (Prim2SF 1 = S754_finite false 4503599627370496 (-52)) as -> by reflexivity.
  pose proof (Prim2SF_valid x) as Hv.
  destruct (Prim2SF x) as [s|s| |s m e].
  - now destruct s.
  - now destruct s.
  - reflexivity.
  - now apply SFdiv_one.
Qed.

Lemma xMean_singleton (x : float) : xMean [x] = x.
Proof.
  unfold xMean. cbn [fold_left length].
  change (number_of_nat 1) with 1%float. apply div_one.
Qed.

(** ** One pass over particular sequences *)

Lemma lookup_window_pass (f : list float -> float) (s : list float) (r i : nat) :
  (i < length s)%nat -> window_pass f s r !! i = Some (f (window s r i)).
Proof. intros Hi. unfold window_pass. now rewrite lookup_fmap_seq. Qed.

Lemma window_pass_radius_0 (f : list float -> float) (s : list float) :
  (forall x, f [x] = x) -> window_pass f s 0 = s.
Proof.
  intros Hf. unfold window_pass. apply fmap_seq_self.
  intros i x Hx. now rewrite (window_radius_0 s i x Hx).
Qed.

Lemma window_pass_whole (f : list float -> float) (s : list float) (r : nat) :
  (length s - 1 <= r)%nat -> window_pass f s r = replicate (length s) (f s).
Proof.
  intros Hr. unfold window_pass. rewrite <- fmap_seq_const.
  apply fmap_seq_ext. intros i Hi. now rewrite window_whole.
Qed.

Lemma window_pass_replicate (f : list float -> float) (c : float) (n r : nat) :
  window_pass f (replicate n c) r
  = (fun i => f (replicate (Nat.min (i + r + 1) n - Nat.max 0 (i - r)) c))
      <$> seq 0 n.
Proof.
  unfold window_pass. rewrite length_replicate.
  apply fmap_seq_ext. intros i Hi. now rewrite window_replicate.
Qed.

Lemma window_pass_min_replicate (c : float) (n r : nat) :
  window_pass window_min (replicate n c) r = replicate n c.
Proof.
  rewrite window_pass_replicate, <- fmap_seq_const.
  apply fmap_seq_ext. intros i Hi. apply window_min_replicate. lia.
Qed.

Lemma window_pass_max_replicate (c : float) (n r : nat) :
  window_pass window_max (replicate n c) r = replicate n c.
Proof.
  rewrite window_pass_replicate, <- fmap_seq_const.
  apply fmap_seq_ext. intros i Hi. apply window_max_replicate. lia.
Qed.

Lemma lookup_reach_pass (f : list float -> float) (s : list float) (a b i : nat) :
  (i < length s)%nat -> reach_pass f s a b !! i = Some (f (reach s a b i)).
Proof. intros Hi. unfold reach_pass. now rewrite lookup_fmap_seq. Qed.

Lemma reach_pass_whole (f : list float -> float) (s : list float) (a b : nat) :
  (length s - 1 <= a)%nat -> (length s - 1 <= b)%nat ->
  reach_pass f s a b = replicate (length s) (f s).
Proof.
  intros Ha Hb. unfold reach_pass. rewrite <- fmap_seq_const.
  apply fmap_seq_ext. intros i Hi. now rewrite reach_whole.
Qed.

Lemma reach_pass_min_replicate (c : float) (n a b : nat) :
  reach_pass window_min (replicate n c) a b = replicate n c.
Proof.
  unfold reach_pass. rewrite length_replicate.
  transitivity ((fun _ : nat => c) <$> seq 0 n); [|apply fmap_seq_const].
  apply fmap_seq_ext. intros i Hi. rewrite reach_replicate.
  apply window_min_replicate. lia.
Qed.

Lemma reach_pass_max_replicate (c : float) (n a b : nat) :
  reach_pass window_max (replicate n c) a b = replicate n c.
Proof.
  unfold reach_pass. rewrite length_replicate.
  transitivity ((fun _ : nat => c) <$> seq 0 n); [|apply fmap_seq_const].
  apply fmap_seq_ext. intros i Hi. rewrite reach_replicate.
  apply window_max_replicate. lia.
Qed.

Lemma lookup_scanned_minima (signal : list float) (M i : nat) :
  (i < length signal)%nat ->
  scanned_minima signal M !! i = Some (window_min (scanned signal M i)).
Proof. apply lookup_reach_pass. Qed.

Lemma lookup_scanned_maxima (signal : list float) (M i : nat) :
  (i < length signal)%nat ->
  scanned_maxima signal M !! i
  = Some (window_max (scanned (scanned_minima signal M) M i)).
Proof.
  intros Hi. apply lookup_reach_pass. now rewrite length_scanned_minima.
Qed.

Lemma scanned_minima_elem (signal : list float) (M : nat) (m : float) :
  m ∈ scanned_minima signal M -> m ∈ signal.
Proof.
  intros Hm. apply list_elem_of_lookup in Hm as [i Hi].
  pose proof (lookup_lt_Some _ _ _ Hi) as Hlt. rewrite length_scanned_minima in Hlt.
  rewrite lookup_scanned_minima in Hi by assumption. injection Hi as <-.
  eapply elem_of_reach_inv. apply window_min_elem. now apply reach_nonempty.
Qed.

Lemma scanned_maxima_elem (signal : list float) (M : nat) (m : float) :
  m ∈ scanned_maxima signal M -> m ∈ scanned_minima signal M.
Proof.
  intros Hm. apply list_elem_of_lookup in Hm as [i Hi].
  pose proof (lookup_lt_Some _ _ _ Hi) as Hlt. rewrite length_scanned_maxima in Hlt.
  rewrite lookup_scanned_maxima in Hi by assumption. injection Hi as <-.
  eapply elem_of_reach_inv. apply window_max_elem.
  apply reach_nonempty. now rewrite length_scanned_minima.
Qed.

Lemma scanned_minima_nan_free (signal : list float) (M : nat) :
  nan_free signal -> nan_free (scanned_minima signal M).
Proof.
  unfold nan_free. rewrite !Forall_forall. intros Hn m Hm.
  now apply Hn, (scanned_minima_elem signal M).
Qed.

Lemma reach_nan_free (s : list float) (a b i : nat) :
  nan_free s -> nan_free (reach s a b i).
Proof.
  unfold nan_free. rewrite !Forall_forall. intros Hn x Hx.
  apply Hn. eapply elem_of_reach_inv, Hx.
Qed.

Lemma window_nan_free (s : list float) (r i : nat) :
  nan_free s -> nan_free (window s r i).
Proof.
  unfold nan_free. intros Hn. apply Forall_forall. intros x Hx.
  rewrite Forall_forall in Hn. apply Hn. eapply elem_of_window_inv, Hx.
Qed.

(** ** The default radii are the exact roundings

    [Math.round(N * 0.04)] multiplies in floating point.  The product of the
    two 53-bit mantissas is rounded to 53 bits, within one unit of the last
    place of the exact product, and no multiple of 0.04 or 0.08 comes closer
    than 0.02 to a half: for every length below [2^48] the rounding of the
    float product is the rounding of the exact product. *)

Lemma digits2_pos_spec (p : positive) :
  2 ^ (Zpos (digits2_pos p) - 1) <= Zpos p < 2 ^ Zpos (digits2_pos p).
Proof.
  induction p as [p IH|p IH|]; cbn [digits2_pos]; stdlib_names.
  - rewrite Pos2Z.inj_succ.
    replace (Z.succ (Zpos (digits2_pos p)) - 1) with (Z.succ (Zpos (digits2_pos p) - 1)) by lia.
    rewrite !Z.pow_succ_r by lia. lia.
  - rewrite Pos2Z.inj_succ.
    replace (Z.succ (Zpos (digits2_pos p)) - 1) with (Z.succ (Zpos (digits2_pos p) - 1)) by lia.
    rewrite !Z.pow_succ_r by lia. lia.
  - cbn. lia.
Qed.

Lemma digits2_pos_unique (p : positive) (d : Z) :
  2 ^ (d - 1) <= Zpos p < 2 ^ d -> Zpos (digits2_pos p) = d.
Proof.
  intros [Hlo Hhi]. pose proof (digits2_pos_spec p) as [Slo Shi].
  set (d' := Zpos (digits2_pos p)) in *.
  assert (0 < d') by (unfold d'; lia).
  destruct (Z.lt_trichotomy d' d) as [Hlt|[Heq|Hgt]]; [|assumption|].
  - assert (2 ^ d' <= 2 ^ (d - 1)) by (apply Z.pow_le_mono_r; lia). lia.
  - assert (d <= 0 \/ 0 < d) as [Hd|Hd] by lia.
    + assert (2 ^ d <= 2 ^ 0) by (destruct (Z.eq_dec d 0) as [->|]; [lia|rewrite Z.pow_neg_r by lia; cbn; lia]).
      cbn in *. lia.
    + assert (2 ^ d <= 2 ^ (d' - 1)) by (apply Z.pow_le_mono_r; lia). lia.
Qed.

Lemma shr_m_shr_1 (mrs : shr_record) :
  0 <= shr_m mrs -> shr_m (shr_1 mrs) = shr_m mrs / 2.
Proof.
  destruct mrs as [m r s]. cbn [shr_m]. intros Hm.
  destruct m as [|[p|p|]|p]; cbn [shr_1 shr_m]; try lia.
  - reflexivity.
  - rewrite Pos2Z.inj_xI. apply Z.div_unique with 1; lia.
  - rewrite Pos2Z.inj_xO. apply Z.div_unique with 0; lia.
  - reflexivity.
Qed.

Lemma shr_m_iter_pos (p : positive) (mrs : shr_record) :
  0 <= shr_m mrs ->
  shr_m (SpecFloat.iter_pos shr_1 p mrs) = shr_m mrs / 2 ^ Zpos p.
Proof.
  revert mrs. induction p as [p IH|p IH|]; intros mrs Hm; cbn [SpecFloat.iter_pos].
  - assert (0 <= shr_m (shr_1 mrs)) as H1
        by (rewrite shr_m_shr_1 by assumption; apply Z.div_pos; lia).
    assert (0 <= shr_m (SpecFloat.iter_pos shr_1 p (shr_1 mrs))) as H2
        by (rewrite IH by assumption; apply Z.div_pos; [assumption|apply Z.pow_pos_nonneg; lia]).
    rewrite IH, IH, shr_m_shr_1 by assumption.
    rewrite !Z.div_div by (try apply Z.pow_pos_nonneg; lia).
    f_equal. rewrite Pos2Z.inj_xI. rewrite <- Z.pow_add_r by lia.
    replace (2 * Zpos p + 1) with (Z.succ (Zpos p + Zpos p)) by lia.
    now rewrite Z.pow_succ_r by lia.
  - assert (0 <= shr_m (SpecFloat.iter_pos shr_1 p mrs)) as H2
        by (rewrite IH by assumption; apply Z.div_pos; [assumption|apply Z.pow_pos_nonneg; lia]).
    rewrite IH, IH by assumption.
    rewrite !Z.div_div by (try apply Z.pow_pos_nonneg; lia).
    f_equal. rewrite Pos2Z.inj_xO. rewrite <- Z.pow_add_r by lia. f_equal. lia.
  - rewrite shr_m_shr_1 by assumption. reflexivity.
Qed.

Lemma round_nearest_even_cases (m : Z) (l : location) :
  round_nearest_even m l = m \/ round_nearest_even m l = m + 1.
Proof.
  destruct l as [|[]]; cbn [round_nearest_even]; auto.
  destruct (Z.even m); auto.
Qed.

Lemma fexp_normal (x : Z) : -1074 <= x - 53 -> fexp prec emax x = x - 53.
Proof. unfold fexp, SpecFloat.emin, prec, emax. stdlib_names. lia. Qed.

Lemma round_stage2 (s : bool) (r E : Z) :
  2 ^ 52 <= r <= 2 ^ 53 -> -1074 <= E -> E < 971 ->
  exists m' e',
    (let '(mrs'', e'') := shr_fexp prec emax r E loc_Exact in
     match shr_m mrs'' with
     | Z0 => S754_zero s
     | Zpos m0 => if e'' <=? emax - prec then S754_finite s m0 e'' else S754_infinity s
     | Zneg _ => S754_nan
     end) = S754_finite s m' e' /\
    ((e' = E /\ Zpos m' = r) \/ (e' = E + 1 /\ 2 * Zpos m' = r)).
Proof.
  intros Hr HE1 HE2. destruct r as [|rp|rp]; try (cbn in Hr; lia).
  unfold shr_fexp. cbn [Zdigits2 shr_record_of_loc].
  destruct (Pos.eq_dec rp 9007199254740992%positive) as [->|N53].
  - exists (4503599627370496%positive), (E + 1).
    assert (Zpos (digits2_pos 9007199254740992) = 54) as -> by reflexivity.
    rewrite fexp_normal by lia. stdlib_names.
    replace (54 + E - 53 - E) with 1 by lia.
    cbn [shr SpecFloat.iter_pos shr_1 shr_m orb].
    assert ((E + 1 <=? emax - prec) = true) as ->
        by (apply Z.leb_le; unfold emax, prec; lia).
    split; [reflexivity|]. right. split; reflexivity.
  - exists rp, E.
    assert (Zpos (digits2_pos rp) = 53) as ->.
    { apply digits2_pos_unique. change (2 ^ 53) with 9007199254740992 in *.
      change (2 ^ (53 - 1)) with (2 ^ 52). lia. }
    rewrite fexp_normal by lia. stdlib_names.
    replace (53 + E - 53 - E) with 0 by lia.
    cbn [shr shr_m].
    assert ((E <=? emax - prec) = true) as ->
        by (apply Z.leb_le; unfold emax, prec; lia).
    split; [reflexivity|]. left. split; reflexivity.
Qed.

(** Rounding a mantissa of more than 53 bits: the result is the quotient by
    [2^k], or its successor, at the exponent raised by [k]. *)
Lemma binary_round_aux_value (s : bool) (m : positive) (e : Z) :
  let k := Zpos (digits2_pos m) - 53 in
  0 < k -> -1074 <= e + k -> e + k < 971 ->
  exists m' e' r,
    binary_round_aux prec emax s (Zpos m) e loc_Exact = S754_finite s m' e' /\
    (r = Zpos m / 2 ^ k \/ r = Zpos m / 2 ^ k + 1) /\
    2 ^ 52 <= Zpos m / 2 ^ k < 2 ^ 53 /\
    ((e' = e + k /\ Zpos m' = r) \/ (e' = e + k + 1 /\ 2 * Zpos m' = r)).
Proof.
  intros k Hk Hlo Hhi.
  unfold binary_round_aux. unfold shr_fexp at 1. cbn [Zdigits2 shr_record_of_loc].
  rewrite fexp_normal by lia. stdlib_names.
  replace (Zpos (digits2_pos m) + e - 53 - e) with k by (unfold k; lia).
  pose proof (digits2_pos_spec m) as [Dlo Dhi].
  replace (Zpos (digits2_pos m)) with (53 + k) in Dlo, Dhi by (unfold k; lia).
  clearbody k. destruct k as [|kp|kp]; try lia.
  cbn [shr].
  set (mrs1 := SpecFloat.iter_pos shr_1 kp _).
  set (q := Zpos m / 2 ^ Zpos kp).
  assert (shr_m mrs1 = q) as Hq
      by (unfold mrs1; rewrite shr_m_iter_pos by (cbn; lia); reflexivity).
  assert (0 < 2 ^ Zpos kp) as Hpk by (apply Z.pow_pos_nonneg; lia).
  assert (2 ^ 52 <= q < 2 ^ 53) as Hqb.
  { unfold q.
    replace (53 + Zpos kp - 1) with (52 + Zpos kp) in Dlo by lia.
    rewrite Z.pow_add_r in Dlo, Dhi by lia. split.
    - apply Z.div_le_lower_bound; lia.
    - apply Z.div_lt_upper_bound; lia. }
  set (r := round_nearest_even (shr_m mrs1) (loc_of_shr_record mrs1)).
  assert (r = q \/ r = q + 1) as Hr
      by (unfold r; rewrite <- Hq; apply round_nearest_even_cases).
  destruct (round_stage2 s r (e + Zpos kp)) as (m' & e' & Heq & Hv); try lia.
  exists m', e', r. auto.
Qed.

Lemma pow2_lt_inv (a b : Z) : 0 <= b -> 2 ^ a < 2 ^ b -> a < b.
Proof. intros Hb H. apply (Z.pow_lt_mono_r_iff 2); lia. Qed.

Lemma round_half_up_scaled (r T K N' q : Z) :
  2 ^ 8 <= T ->
  0 <= K <= 2 ^ 46 ->
  25 * K - 12 <= N' <= 25 * K + 12 ->
  2 ^ 57 * q <= 5764607523034235 * (N' * T) < 2 ^ 57 * (q + 1) ->
  r = q \/ r = q + 1 ->
  (2 * r + T) / (2 * T) = K.
Proof.
  intros HT HK HN Hq Hr.
  assert (25 * (T * K) - 12 * T <= N' * T <= 25 * (T * K) + 12 * T) as HY by nia.
  assert (0 <= T * K <= 2 ^ 46 * T) as HX by nia.
  change (2 ^ 57) with 144115188075855872 in Hq.
  change (2 ^ 8) with 256 in HT.
  change (2 ^ 46) with 70368744177664 in HX.
  set (X := T * K) in *. set (Y := N' * T) in *.
  symmetry. apply Z.div_unique with (2 * r + T - 2 * X).
  - left. lia.
  - unfold X. lia.
Qed.

Lemma round_product_core (mN : positive) (e N' : Z) :
  Zpos (digits2_pos mN) = 53 ->
  e <= -57 ->
  Zpos mN = N' * 2 ^ (-57 - e) ->
  1 <= N' < 2 ^ 49 ->
  SFround (binary_round_aux prec emax false (Zpos (mN * 5764607523034235)) e loc_Exact)
  = (4 * N' + 50) / 100.
Proof.
  intros HdN He HmN HN.
  set (A := 2 ^ (-57 - e)) in *.
  assert (0 < A) as HA by (apply Z.pow_pos_nonneg; lia).
  pose proof (digits2_pos_spec mN) as [Nlo Nhi]. rewrite HdN in Nlo, Nhi.
  change (2 ^ (53 - 1)) with 4503599627370496 in Nlo.
  change (2 ^ 53) with 9007199254740992 in Nhi.
  change (2 ^ 49) with 562949953421312 in HN.
  (* the exponent of the product *)
  assert (A < 2 ^ 53) as HA1 by (change (2 ^ 53) with 9007199254740992; nia).
  assert (2 ^ 3 < A) as HA2 by (change (2 ^ 3) with 8; nia).
  apply pow2_lt_inv in HA1; [|lia].
  apply pow2_lt_inv in HA2; [|lia].
  (* the width of the product *)
  set (P := (mN * 5764607523034235)%positive).
  assert (Zpos P = Zpos mN * 5764607523034235) as HP by (unfold P; lia).
  pose proof (digits2_pos_spec P) as [Plo Phi].
  assert (2 ^ 104 <= Zpos P < 2 ^ 106) as HPb.
  { change (2 ^ 104) with (4503599627370496 * 4503599627370496).
    change (2 ^ 106) with (9007199254740992 * 9007199254740992). nia. }
  assert (104 < Zpos (digits2_pos P)) as Hd1 by (apply pow2_lt_inv; lia).
  assert (Zpos (digits2_pos P) - 1 < 106) as Hd2 by (apply pow2_lt_inv; lia).
  destruct (binary_round_aux_value false P e) as (m' & e' & r & Heq & Hr & Hqb & Hv);
    try lia.
  rewrite Heq. clear Heq.
  set (k := Zpos (digits2_pos P) - 53) in *.
  set (q := Zpos P / 2 ^ k) in *.
  set (E := e + k) in *.
  assert (E <= -8) as HE by (unfold E; lia).
  set (T := 2 ^ (- E)).
  assert (2 ^ 8 <= T) as HT by (apply Z.pow_le_mono_r; lia).
  assert (0 < 2 ^ k) as Hk by (apply Z.pow_pos_nonneg; lia).
  (* the rounded value is [r * 2^E] *)
  assert (SFround (S754_finite false m' e') = (2 * r + T) / (2 * T)) as ->.
  { unfold SFround. cbn [cond_Zopp].
    destruct (Z.leb_spec 0 e') as [Hpos|Hneg]; [lia|].
    destruct Hv as [[-> <-]|[-> <-]].
    - replace (1 - E) with (Z.succ (- E)) by lia.
      rewrite Z.pow_succ_r by lia. reflexivity.
    - replace (1 - (E + 1)) with (- E) by lia. fold T.
      assert (T = 2 * 2 ^ (- (E + 1))) as HT2.
      { unfold T. replace (- E) with (Z.succ (- (E + 1))) by lia.
        now rewrite Z.pow_succ_r by lia. }
      rewrite HT2.
      replace (2 * (2 * Zpos m') + 2 * 2 ^ (- (E + 1)))
        with (2 * (2 * Zpos m' + 2 ^ (- (E + 1)))) by lia.
      rewrite Z.div_mul_cancel_l; [reflexivity| |lia].
      assert (0 < 2 ^ (- (E + 1))) by (apply Z.pow_pos_nonneg; lia). lia. }
  (* the quotient brackets the exact product *)
  assert (T * 2 ^ k = 2 ^ 57 * A) as HTk.
  { unfold T, A. rewrite <- !Z.pow_add_r by lia. f_equal. unfold E. lia. }
  assert (2 ^ k * q <= Zpos P < 2 ^ k * (q + 1)) as Hq.
  { unfold q. split; [apply Z.mul_div_le; lia|].
    replace (Zpos P / 2 ^ k + 1) with (Z.succ (Zpos P / 2 ^ k)) by lia.
    apply Z.mul_succ_div_gt; lia. }
  assert (2 ^ 57 * q <= 5764607523034235 * (N' * T) < 2 ^ 57 * (q + 1)) as Hbr.
  { rewrite HP, HmN in Hq. destruct Hq as [Hq1 Hq2].
    assert (T * (2 ^ k * q) <= T * (N' * A * 5764607523034235)) as H1
        by (apply Z.mul_le_mono_nonneg_l; lia).
    assert (T * (N' * A * 5764607523034235) < T * (2 ^ k * (q + 1))) as H2
        by (apply Z.mul_lt_mono_pos_l; lia).
    replace (T * (2 ^ k * q)) with (A * (2 ^ 57 * q)) in H1 by (rewrite (Z.mul_assoc T), HTk; lia).
    replace (T * (2 ^ k * (q + 1))) with (A * (2 ^ 57 * (q + 1))) in H2
      by (rewrite (Z.mul_assoc T), HTk; lia).
    replace (T * (N' * A * 5764607523034235))
      with (A * (5764607523034235 * (N' * T))) in H1, H2 by lia.
    split; [apply Z.mul_le_mono_pos_l in H1 | apply Z.mul_lt_mono_pos_l in H2]; assumption. }
  (* the exact rounding *)
  set (K := (4 * N' + 50) / 100).
  assert (100 * K <= 4 * N' + 50 < 100 * (K + 1)) as HK.
  { unfold K. split; [apply Z.mul_div_le; lia|].
    replace ((4 * N' + 50) / 100 + 1) with (Z.succ ((4 * N' + 50) / 100)) by lia.
    apply Z.mul_succ_div_gt; lia. }
  apply round_half_up_scaled with (N' := N') (q := q); try assumption.
  - change (2 ^ 46) with 70368744177664. lia.
  - lia.
Qed.

Lemma pos_iter_xO (p k : positive) : Zpos (Pos.iter xO p k) = Zpos p * 2 ^ Zpos k.
Proof.
  induction k as [|k IH] using Pos.peano_ind.
  - cbn. lia.
  - rewrite Pos.iter_succ, Pos2Z.inj_xO, IH, Pos2Z.inj_succ, Z.pow_succ_r by lia. lia.
Qed.

Lemma binary_normalize_small (p : positive) :
  Zpos p < 2 ^ 53 ->
  exists m e,
    binary_normalize prec emax (Zpos p) 0 false = S754_finite false m e /\
    Zpos (digits2_pos m) = 53 /\ e <= 0 /\ Zpos m = Zpos p * 2 ^ (- e).
Proof.
  intros Hp. pose proof (digits2_pos_spec p) as [Dlo Dhi].
  set (d := Zpos (digits2_pos p)) in *.
  assert (0 < d) as Hd0 by (unfold d; lia).
  assert (d <= 53) as Hd by (assert (d - 1 < 53) by (apply pow2_lt_inv; lia); lia).
  unfold binary_normalize, binary_round. fold d.
  stdlib_names. rewrite Z.add_0_r. rewrite fexp_normal by lia.
  unfold shl_align. stdlib_names. rewrite Z.sub_0_r.
  destruct (d - 53) as [|k|k] eqn:Hk; try lia.
  - exists p, 0. split; [|split; [|split]]; try lia.
    apply binary_round_aux_exact. unfold bounded, canonical_mantissa.
    fold d. stdlib_names. rewrite Z.add_0_r, fexp_normal by lia. rewrite Hk. reflexivity.
  - exists (Pos.iter xO p k), (Zneg k).
    assert (Zpos (Pos.iter xO p k) = Zpos p * 2 ^ Zpos k) as Hv by apply pos_iter_xO.
    assert (Zpos (digits2_pos (Pos.iter xO p k)) = 53) as Hd53.
    { apply digits2_pos_unique. rewrite Hv.
      replace 53 with (d + Zpos k) at 2 by lia.
      replace (53 - 1) with ((d - 1) + Zpos k) by lia.
      rewrite !Z.pow_add_r by lia.
      assert (0 < 2 ^ Zpos k) by (apply Z.pow_pos_nonneg; lia). nia. }
    split; [|split; [|split]]; try lia.
    + apply binary_round_aux_exact. unfold bounded, canonical_mantissa.
      rewrite Hd53. stdlib_names. rewrite fexp_normal by lia.
      apply andb_true_iff. split; [apply Z.eqb_eq; lia|apply Z.leb_le; unfold emax, prec; lia].
    + exact Hv.
Qed.

Lemma Prim2SF_number_of_nat (n : nat) :
  1 <= Z.of_nat n < 2 ^ 53 ->
  exists m e,
    Prim2SF (number_of_nat n) = S754_finite false m e /\
    Zpos (digits2_pos m) = 53 /\ e <= 0 /\ Zpos m = Z.of_nat n * 2 ^ (- e).
Proof.
  intros Hn. unfold number_of_nat. rewrite of_uint63_spec, Uint63.of_Z_spec.
  rewrite Z.mod_small by (change Uint63.wB with (2 ^ 63); change (2 ^ 53) with 9007199254740992 in Hn; change (2 ^ 63) with 9223372036854775808; lia).
  destruct (Z.of_nat n) as [|p|p] eqn:E; try lia.
  apply binary_normalize_small. lia.
Qed.

Lemma defaultWindowM_exact (n : nat) :
  1 <= Z.of_nat n < 2 ^ 48 -> defaultWindowM n = round_percent 4 n.
Proof.
  intros Hn. change (2 ^ 48) with 281474976710656 in Hn.
  unfold defaultWindowM, round_percent, Math_round. f_equal.
  rewrite mul_spec.
  destruct (Prim2SF_number_of_nat n) as (m & e & -> & Hd & He & Hm);
    [change (2 ^ 53) with 9007199254740992; lia|].
  assert (Prim2SF 0.04 = S754_finite false 5764607523034235 (-57)) as -> by reflexivity.
  unfold SF64mul, SFmul. cbn [xorb]. stdlib_names.
  apply round_product_core.
  - exact Hd.
  - lia.
  - rewrite Hm. do 2 f_equal. lia.
  - change (2 ^ 49) with 562949953421312. lia.
Qed.

Lemma defaultWindowS_exact (n : nat) :
  1 <= Z.of_nat n < 2 ^ 48 -> defaultWindowS n = round_percent 8 n.
Proof.
  intros Hn. change (2 ^ 48) with 281474976710656 in Hn.
  unfold defaultWindowS, round_percent, Math_round. f_equal.
  rewrite mul_spec.
  destruct (Prim2SF_number_of_nat n) as (m & e & -> & Hd & He & Hm);
    [change (2 ^ 53) with 9007199254740992; lia|].
  assert (Prim2SF 0.08 = S754_finite false 5764607523034235 (-56)) as -> by reflexivity.
  unfold SF64mul, SFmul. cbn [xorb]. stdlib_names.
  assert (e <= -1) as He1.
  { destruct (Z.eq_dec e 0) as [->|]; [|lia]. cbn in Hm.
    pose proof (digits2_pos_spec m) as [Dlo _]. rewrite Hd in Dlo.
    change (2 ^ (53 - 1)) with 4503599627370496 in Dlo. lia. }
  replace (8 * Z.of_nat n + 50) with (4 * (2 * Z.of_nat n) + 50) by lia.
  apply round_product_core.
  - exact Hd.
  - lia.
  - rewrite Hm. replace (- e) with (Z.succ (-57 - (e + -56))) by lia.
    rewrite Z.pow_succ_r by lia. lia.
  - change (2 ^ 49) with 562949953421312. lia.
Qed.

(** ** The guards of [rollingBall] *)

(** A numeric sequence: an array all of whose elements are numbers. *)
Definition is_JsNumber (p : JsPrim) : bool :=
  match p with
  | JsNumber _ => true
  | _ => false
  end.

Definition is_numeric_sequence (v : JsValue) : bool :=
  match v with
  | JsAnyArray elems => forallb is_JsNumber elems
  | _ => false
  end.

(** The radii in force once the defaults are filled in. *)
Definition radiusM (numberPoints : nat) (options : Options) : nat :=
  default (defaultWindowM numberPoints) (windowM options).

Definition radiusS (numberPoints : nat) (options : Options) : nat :=
  default (defaultWindowS numberPoints) (windowS options).

Lemma rollingBall_array (elems : list JsPrim) (options : Options) :
  (1 <= length elems)%nat ->
  rollingBall (JsAnyArray elems) options
  = Return (baseline (rollingBall_buffers elems
                        (radiusM (length elems) options)
                        (radiusS (length elems) options))).
Proof.
  intros Hn. unfold rollingBall. cbn [isAnyArray negb js_elements].
  destruct (Nat.eqb_spec (length elems) 0) as [E|E]; [lia|reflexivity].
Qed.

Lemma rollingBall_not_array (v : JsValue) (options : Options) :
  isAnyArray v = false -> rollingBall v options = Throw InvalidInputError.
Proof. intros H. unfold rollingBall. now rewrite H. Qed.

Lemma rollingBall_empty_array (options : Options) :
  rollingBall (JsAnyArray []) options = Throw EmptyInputError.
Proof. reflexivity. Qed.

(** The regression scenario of the specification: the alternating signal
    with both radii 1. *)
Example alternating_signal :
  rollingBall_buffers (JsNumber <$> [5; 1; 5; 1; 5; 1; 5]%float) 1 1
  = {| minima := replicate 7 1%float ;
       maxima := replicate 7 1%float ;
       baseline := replicate 7 1%float |}.
Proof. reflexivity. Qed.

(** Far from both ends the window is centred and [2 * radius + 1] wide; at
    index 0 it is [[0, radius + 1)]. *)
Lemma window_interior {A : Type} (s : list A) (r i : nat) :
  (r <= i)%nat -> (i + r < length s)%nat ->
  window s r i = subarray s (i - r) (i + r + 1) /\
  length (window s r i) = (2 * r + 1)%nat.
Proof.
  intros Hl Hr. unfold window.
  replace (Nat.max 0 (i - r)) with (i - r)%nat by lia.
  replace (Nat.min (i + r + 1) (length s)) with (i + r + 1)%nat by lia.
  split; [reflexivity|]. unfold subarray. rewrite length_take, length_drop. lia.
Qed.

Lemma window_at_0 {A : Type} (s : list A) (r : nat) :
  window s r 0 = take (Nat.min (r + 1) (length s)) s.
Proof. unfold window, subarray. cbn [Nat.sub Nat.max drop Nat.add]. f_equal. lia. Qed.

(** ** Numeric signals *)

(** Two floats with different representations are different. *)
Lemma float_neq (x y : float) : Prim2SF x <> Prim2SF y -> x <> y.
Proof. intros H E. apply H. now rewrite E. Qed.

(** Two sequences of floats that differ at index [k]. *)
Ltac differ_at k :=
  let H := fresh "H" in
  intros H;
  apply (f_equal (fun l : list float => Prim2SF (default nan (l !! k)))) in H;
  vm_compute in H; discriminate H.

Lemma rollingBall_numbers (signal : list float) (M S : nat) :
  (1 <= length signal)%nat ->
  rollingBall (numbers signal) {| windowM := Some M ; windowS := Some S |}
  = Return (computed_baseline signal M S).
Proof.
  intros Hn. unfold numbers. rewrite rollingBall_array by (now rewrite length_fmap).
  now rewrite rollingBall_buffers_numbers.
Qed.

(** The width of the clipped smoothing window at index [i]. *)
Definition window_width (n radius i : nat) : nat :=
  (Nat.min (i + radius + 1) n - Nat.max 0 (i - radius))%nat.

Lemma scanned_constant (c : float) (n M S : nat) :
  scanned_minima (replicate n c) M = replicate n c /\
  scanned_maxima (replicate n c) M = replicate n c /\
  computed_baseline (replicate n c) M S
  = (fun i => xMean (replicate (window_width n S i) c)) <$> seq 0 n /\
  computed_baseline (replicate n c) M 0 = replicate n c.
Proof.
  assert (scanned_minima (replicate n c) M = replicate n c) as Hmin
      by apply reach_pass_min_replicate.
  assert (scanned_maxima (replicate n c) M = replicate n c) as Hmax
      by (unfold scanned_maxima; rewrite Hmin; apply reach_pass_max_replicate).
  split; [exact Hmin|]. split; [exact Hmax|].
  unfold computed_baseline. rewrite Hmax. split.
  - apply window_pass_replicate.
  - apply window_pass_radius_0, xMean_singleton.
Qed.

(** The scanned window, bound by bound. *)
Lemma scanned_bounds {A : Type} (s : list A) (r i : nat) :
  scanned s r i = subarray s (Nat.max 0 (i - r)) (Nat.min (i + r + 2) (length s)).
Proof. unfold scanned, reach. do 2 f_equal. lia. Qed.

Lemma window_in_scanned {A : Type} (s : list A) (r i : nat) (x : A) :
  x ∈ window s r i -> x ∈ scanned s r i.
Proof. rewrite window_reach. apply reach_wider; lia. Qed.

(** * The claims *)

(** C1. The code does not compute the three-pass reference.  The first two
    loops hand [windowRight], the exclusive bound of the clipped window, to
    helpers that read [toIndex] as the last index scanned, so their windows
    reach one index further right than the window of the third loop.  On
    [4; 2; 9; 7; 3] with both radii 1 the maxima and the returned baseline
    differ from the reference: [maxima[1]] is 3 where the maximum of
    [minima] over the clipped window is 2. *)
Theorem rollingBall_departs_from_reference :
  let signal := [4; 2; 9; 7; 3]%float in
  let b := rollingBall_buffers (JsNumber <$> signal) 1 1 in
  rollingBall (numbers signal) {| windowM := Some 1%nat ; windowS := Some 1%nat |}
  = Return [2.5; 2.6666666666666665; 3; 3; 3]%float /\
  reference_baseline signal 1 1
  = [2; 2.3333333333333335; 2.6666666666666665; 3; 3]%float /\
  minima b = [2; 2; 2; 3; 3]%float /\
  maxima b = [2; 3; 3; 3; 3]%float /\
  reference_maxima signal 1 = [2; 2; 3; 3; 3]%float /\
  window (minima b) 1 1 = [2; 2; 2]%float /\
  scanned (minima b) 1 1 = [2; 2; 2; 3]%float /\
  maxima b <> reference_maxima signal 1 /\
  baseline b <> reference_baseline signal 1 1.
Proof.
  cbv zeta. do 7 (split; [reflexivity|]). split.
  - differ_at 1%nat.
  - differ_at 0%nat.
Qed.

(** C2. For every array of length N >= 1, whatever its elements and whatever
    the window options, [rollingBall] returns a sequence of length N. *)
Theorem rollingBall_length (elems : list JsPrim) (options : Options) :
  (1 <= length elems)%nat ->
  exists result,
    rollingBall (JsAnyArray elems) options = Return result /\
    length result = length elems.
Proof.
  intros Hn. eexists. split; [now apply rollingBall_array|].
  apply length_buffers.
Qed.

Lemma rollingBall_length_witness :
  exists result,
    rollingBall (JsAnyArray [JsNumber 5; JsNumber 1; JsNumber 5; JsNumber 1])
      {| windowM := Some 1%nat ; windowS := None |} = Return result /\
    length result = 4%nat.
Proof.
  apply (rollingBall_length [JsNumber 5; JsNumber 1; JsNumber 5; JsNumber 1]
           {| windowM := Some 1%nat ; windowS := None |}).
  simpl. lia.
Defined.

(** C3. [rollingBall] raises the empty-input error exactly on the empty array:
    the empty signal is rejected with that error (an exception, hence no
    baseline at all), and no other input raises it. *)
Theorem rollingBall_empty_input (spectrum : JsValue) (options : Options) :
  rollingBall spectrum options = Throw EmptyInputError <-> spectrum = JsAnyArray [].
Proof.
  split.
  - destruct spectrum as [p|s| |[|x elems]]; [discriminate..|reflexivity|].
    rewrite rollingBall_array by (cbn; lia). discriminate.
  - intros ->. reflexivity.
Qed.

Lemma rollingBall_empty_input_witness :
  rollingBall (JsAnyArray []) {| windowM := None ; windowS := None |}
  = Throw EmptyInputError.
Proof.
  apply (rollingBall_empty_input (JsAnyArray []) {| windowM := None ; windowS := None |}).
  reflexivity.
Defined.

(** C4, as stated, fails: an array with a non-numeric element is not a
    numeric sequence, yet [rollingBall] does not raise the invalid-input
    error on it; the element is converted when it is stored. *)
Lemma rollingBall_accepts_non_numeric_elements :
  is_numeric_sequence (JsAnyArray [JsNumber 1; JsUndefined]) = false /\
  rollingBall (JsAnyArray [JsNumber 1; JsUndefined])
    {| windowM := None ; windowS := None |} = Return [1%float; nan] /\
  rollingBall (JsAnyArray [JsNumber 1; JsUndefined])
    {| windowM := None ; windowS := None |} <> Throw InvalidInputError.
Proof. split; [reflexivity | split; [reflexivity | discriminate]]. Qed.

(** C4, amended. [rollingBall] raises the invalid-input error exactly on the
    inputs that are not arrays (null, any other non-array value): the guard
    is the first statement, so nothing is computed before it, and no array
    raises this error, whatever its elements. *)
Theorem rollingBall_invalid_input (spectrum : JsValue) (options : Options) :
  rollingBall spectrum options = Throw InvalidInputError <-> isAnyArray spectrum = false.
Proof.
  split.
  - destruct spectrum as [p|s| |[|x elems]]; [reflexivity..|discriminate|].
    rewrite rollingBall_array by (cbn; lia). discriminate.
  - apply rollingBall_not_array.
Qed.

Lemma rollingBall_invalid_input_witness :
  rollingBall (JsPrimitive JsNull) {| windowM := None ; windowS := None |}
  = Throw InvalidInputError.
Proof.
  apply (rollingBall_invalid_input (JsPrimitive JsNull)
           {| windowM := None ; windowS := None |}).
  reflexivity.
Defined.

(** C5. An omitted [windowM] is [Math.round(N * 0.04)] and an omitted
    [windowS] is [Math.round(N * 0.08)]: the result with options left out is
    the result with these radii passed explicitly.  For every length below
    [2^48] these are the exact roundings [round(N * 0.04)] and
    [round(N * 0.08)], and no half ever has to be rounded. *)
Theorem rollingBall_default_windows (spectrum : JsValue) (options : Options) :
  let N := length (js_elements spectrum) in
  rollingBall spectrum options
  = rollingBall spectrum
      {| windowM := Some (default (defaultWindowM N) (windowM options)) ;
         windowS := Some (default (defaultWindowS N) (windowS options)) |} /\
  rollingBall spectrum {| windowM := None ; windowS := None |}
  = rollingBall spectrum
      {| windowM := Some (defaultWindowM N) ; windowS := Some (defaultWindowS N) |} /\
  (1 <= Z.of_nat N < 2 ^ 48 ->
   defaultWindowM N = round_percent 4 N /\
   defaultWindowS N = round_percent 8 N /\
   rollingBall spectrum {| windowM := None ; windowS := None |}
   = rollingBall spectrum
       {| windowM := Some (round_percent 4 N) ;
          windowS := Some (round_percent 8 N) |}) /\
  (4 * Z.of_nat N + 50) mod 100 <> 0 /\ (8 * Z.of_nat N + 50) mod 100 <> 0.
Proof.
  cbv zeta. split; [destruct spectrum; reflexivity|].
  split; [destruct spectrum; reflexivity|]. split.
  - intros HN.
    rewrite <- (defaultWindowM_exact _ HN), <- (defaultWindowS_exact _ HN).
    split; [reflexivity|]. split; [reflexivity|]. destruct spectrum; reflexivity.
  - split; intros H; apply Z.mod_divide in H; try lia; destruct H as [z Hz]; lia.
Qed.

Lemma rollingBall_default_windows_witness :
  let spectrum := numbers (replicate 30 1%float) in
  defaultWindowM 30 = 1%nat /\
  defaultWindowS 30 = 2%nat /\
  rollingBall spectrum {| windowM := None ; windowS := None |}
  = rollingBall spectrum {| windowM := Some 1%nat ; windowS := Some 2%nat |}.
Proof.
  cbv zeta.
  destruct (rollingBall_default_windows (numbers (replicate 30 1%float))
              {| windowM := None ; windowS := None |}) as (_ & _ & H & _).
  apply H. simpl. lia.
Defined.

(** C6. With [windowM = 0] the code does not copy the signal: the helpers
    scan the point and its right neighbour, so on [5; 1; 7] the minima are
    [1; 1; 7] and the maxima [1; 7; 7], where the one-element windows of the
    clipping formula would give [5; 1; 7] twice. *)
Theorem zero_radius_scans_two_points :
  let signal := [5; 1; 7]%float in
  let b := rollingBall_buffers (JsNumber <$> signal) 0 0 in
  minima b = [1; 1; 7]%float /\
  maxima b = [1; 7; 7]%float /\
  rollingBall (numbers signal) {| windowM := Some 0%nat ; windowS := Some 0%nat |}
  = Return [1; 7; 7]%float /\
  window signal 0 0 = [5]%float /\
  scanned signal 0 0 = [5; 1]%float /\
  reference_minima signal 0 = signal /\
  reference_maxima signal 0 = signal /\
  minima b <> signal /\
  maxima b <> signal.
Proof.
  cbv zeta. do 7 (split; [reflexivity|]). split.
  - differ_at 0%nat.
  - differ_at 0%nat.
Qed.

(** C7, as stated, fails: the mean of three copies of [0.1] is computed as
    [(0.1 + 0.1 + 0.1) / 3], which is the next float above [0.1]. *)
Lemma constant_signal_baseline_not_constant :
  rollingBall (numbers (replicate 3 0.1%float))
    {| windowM := Some 0%nat ; windowS := Some 1%nat |}
  = Return [0.1; 0.10000000000000002; 0.1]%float /\
  [0.1; 0.10000000000000002; 0.1]%float <> replicate 3 0.1%float.
Proof.
  split; [reflexivity|].
  intros H. apply (f_equal (fun l => l !! 1%nat)) in H. cbn in H.
  assert (0.10000000000000002 = 0.1)%float as E by congruence.
  revert E. apply float_neq. vm_compute. discriminate.
Qed.

(** C7, amended. On a constant signal of value [c] the minima and the maxima
    consist entirely of [c], and [baseline[i]] is the floating-point mean of
    as many copies of [c] as the clipped smoothing window at [i] is wide;
    with [windowS = 0] the baseline consists entirely of [c]. *)
Theorem constant_signal (c : float) (n M S : nat) :
  (1 <= n)%nat ->
  let signal := replicate n c in
  let b := rollingBall_buffers (JsNumber <$> signal) M S in
  minima b = replicate n c /\
  maxima b = replicate n c /\
  baseline b = (fun i => xMean (replicate (window_width n S i) c)) <$> seq 0 n /\
  rollingBall (numbers signal) {| windowM := Some M ; windowS := Some S |}
  = Return (baseline b) /\
  rollingBall (numbers signal) {| windowM := Some M ; windowS := Some 0%nat |}
  = Return (replicate n c).
Proof.
  intros Hn. cbv zeta. rewrite rollingBall_buffers_numbers.
  cbn [minima maxima baseline].
  destruct (scanned_constant c n M S) as (Hmin & Hmax & Hbase & Hzero).
  rewrite !rollingBall_numbers by (now rewrite length_replicate).
  rewrite Hzero. auto.
Qed.

Lemma constant_signal_witness :
  let signal := replicate 4 0.1%float in
  let b := rollingBall_buffers (JsNumber <$> signal) 2 1 in
  minima b = replicate 4 0.1%float /\
  maxima b = replicate 4 0.1%float /\
  baseline b
  = (fun i => xMean (replicate (window_width 4 1 i) 0.1%float)) <$> seq 0 4 /\
  rollingBall (numbers signal) {| windowM := Some 2%nat ; windowS := Some 1%nat |}
  = Return (baseline b) /\
  rollingBall (numbers signal) {| windowM := Some 2%nat ; windowS := Some 0%nat |}
  = Return (replicate 4 0.1%float).
Proof. apply (constant_signal 0.1%float 4 2 1). lia. Defined.

(** C8, as stated, fails: on the constant signal of four values [0.1] the
    maxima are all [0.1], and the baseline value at index 1, the mean of
    three copies of [0.1], is above every one of them. *)
Lemma baseline_above_every_maximum :
  let b := rollingBall_buffers (JsNumber <$> [0.1; 0.1; 0.1; 0.1]%float) 0 1 in
  rollingBall (numbers [0.1; 0.1; 0.1; 0.1]%float)
    {| windowM := Some 0%nat ; windowS := Some 1%nat |} = Return (baseline b) /\
  maxima b = [0.1; 0.1; 0.1; 0.1]%float /\
  baseline b !! 1%nat = Some 0.10000000000000002%float /\
  Forall (fun hi => (0.10000000000000002 <=? hi)%float = false) (maxima b).
Proof.
  cbv zeta. split; [reflexivity|]. split; [reflexivity|]. split; [reflexivity|].
  repeat constructor.
Qed.

(** C8, amended. On a signal without NaN, every baseline value is the
    floating-point unweighted mean of the maxima in its clipped window (so
    it equals [maxima[i]] when [windowS = 0]), and for every [i], [maxima[i]]
    is at least [minima[i]], which is a value of the signal no larger than
    any value in the clipped window of radius [windowM] around [i]. *)
Theorem baseline_mean_of_maxima (signal : list float) (M S i : nat) :
  nan_free signal -> (i < length signal)%nat ->
  let b := rollingBall_buffers (JsNumber <$> signal) M S in
  exists mn mx bl,
    minima b !! i = Some mn /\ maxima b !! i = Some mx /\
    baseline b !! i = Some bl /\
    bl = xMean (window (maxima b) S i) /\
    baseline (rollingBall_buffers (JsNumber <$> signal) M 0) !! i = Some mx /\
    mn ∈ signal /\
    (forall y, y ∈ window signal M i -> (mn <=? y)%float = true) /\
    (mn <=? mx)%float = true.
Proof.
  intros Hnan Hi. cbv zeta. rewrite !rollingBall_buffers_numbers.
  cbn [minima maxima baseline].
  pose proof (length_scanned_minima signal M) as Lmin.
  pose proof (length_scanned_maxima signal M) as Lmax.
  pose proof (lookup_scanned_minima signal M i Hi) as Hmn.
  pose proof (lookup_scanned_maxima signal M i Hi) as Hmx.
  assert (is_minimum (window_min (scanned signal M i)) (scanned signal M i))
    as [Hin Hlow]
      by (apply window_min_is_minimum; [now apply reach_nonempty|now apply reach_nan_free]).
  exists (window_min (scanned signal M i)),
         (window_max (scanned (scanned_minima signal M) M i)),
         (xMean (window (scanned_maxima signal M) S i)).
  split; [exact Hmn|]. split; [exact Hmx|].
  split; [apply lookup_window_pass; lia|]. split; [reflexivity|].
  split; [|split; [|split]].
  - unfold computed_baseline.
    rewrite window_pass_radius_0 by apply xMean_singleton. exact Hmx.
  - eapply elem_of_reach_inv, Hin.
  - intros y Hy. now apply Hlow, window_in_scanned.
  - assert (is_maximum (window_max (scanned (scanned_minima signal M) M i))
              (scanned (scanned_minima signal M) M i)) as [_ Hub].
    { apply window_max_is_maximum; [apply reach_nonempty; lia|].
      now apply reach_nan_free, scanned_minima_nan_free. }
    apply Hub. now apply elem_of_reach_centre.
Qed.

Lemma baseline_mean_of_maxima_witness :
  let b := rollingBall_buffers (JsNumber <$> [4; 2; 9; 7; 3]%float) 1 1 in
  exists mn mx bl,
    minima b !! 2%nat = Some mn /\ maxima b !! 2%nat = Some mx /\
    baseline b !! 2%nat = Some bl /\
    bl = xMean (window (maxima b) 1 2) /\
    baseline (rollingBall_buffers (JsNumber <$> [4; 2; 9; 7; 3]%float) 1 0) !! 2%nat
    = Some mx /\
    mn ∈ [4; 2; 9; 7; 3]%float /\
    (forall y, y ∈ window [4; 2; 9; 7; 3]%float 1 2 -> (mn <=? y)%float = true) /\
    (mn <=? mx)%float = true.
Proof.
  apply (baseline_mean_of_maxima [4; 2; 9; 7; 3]%float 1 1 2).
  - repeat constructor.
  - simpl. lia.
Defined.

(** C9. On a single-point signal every window clips to the whole
    one-element array, so [rollingBall] returns the point, whatever the radii
    (given or defaulted). *)
Theorem single_point_signal (x : float) (options : Options) :
  rollingBall (numbers [x]) options = Return [x].
Proof.
  unfold numbers. rewrite rollingBall_array by (cbn; lia).
  rewrite rollingBall_buffers_numbers. cbn [baseline]. f_equal.
  set (M := radiusM _ _). set (S := radiusS _ _).
  assert (forall (f : list float -> float) y a b, reach_pass f [y] a b = [f [y]]) as Hp.
  { intros f y a b. now rewrite reach_pass_whole by (cbn; lia). }
  unfold computed_baseline, scanned_maxima, scanned_minima, scan_pass.
  rewrite !Hp. cbn [window_min window_max fold_left].
  rewrite window_pass_whole by (cbn; lia). cbn [length replicate].
  now rewrite xMean_singleton.
Qed.

(** C10, as stated, fails: with a radius covering the whole signal the
    minima and maxima are the global minimum [0.1], but the mean of three
    copies of it rounds to the next float. *)
Lemma wide_window_baseline_not_constant :
  window_min [0.3; 0.1; 0.2]%float = 0.1%float /\
  rollingBall (numbers [0.3; 0.1; 0.2]%float)
    {| windowM := Some 2%nat ; windowS := Some 1%nat |}
  = Return [0.1; 0.10000000000000002; 0.1]%float /\
  [0.1; 0.10000000000000002; 0.1]%float <> replicate 3 0.1%float.
Proof.
  split; [reflexivity|]. split; [reflexivity|].
  intros H. apply (f_equal (fun l => l !! 1%nat)) in H. cbn in H.
  assert (0.10000000000000002 = 0.1)%float as E by congruence.
  revert E. apply float_neq. vm_compute. discriminate.
Qed.

(** C10, amended. When [windowM >= N - 1] every minima window is the whole
    signal, so the minima and the maxima are constant, equal to the minimum
    [g] of the signal (a least element when the signal has no NaN), and
    [baseline[i]] is the floating-point mean of as many copies of [g] as the
    clipped smoothing window at [i] is wide; with [windowS = 0] the baseline
    is constant, equal to [g]. *)
Theorem wide_window_global_minimum (signal : list float) (M S : nat) :
  (1 <= length signal)%nat -> (length signal - 1 <= M)%nat ->
  let n := length signal in
  let g := window_min signal in
  let b := rollingBall_buffers (JsNumber <$> signal) M S in
  (nan_free signal -> is_minimum g signal) /\
  minima b = replicate n g /\
  maxima b = replicate n g /\
  baseline b = (fun i => xMean (replicate (window_width n S i) g)) <$> seq 0 n /\
  rollingBall (numbers signal) {| windowM := Some M ; windowS := Some S |}
  = Return (baseline b) /\
  rollingBall (numbers signal) {| windowM := Some M ; windowS := Some 0%nat |}
  = Return (replicate n g).
Proof.
  intros Hn HM. cbv zeta. rewrite rollingBall_buffers_numbers.
  cbn [minima maxima baseline].
  assert (scanned_minima signal M = replicate (length signal) (window_min signal))
    as Hmin by (apply reach_pass_whole; lia).
  assert (scanned_maxima signal M = replicate (length signal) (window_min signal))
    as Hmax by (unfold scanned_maxima; rewrite Hmin; apply reach_pass_max_replicate).
  rewrite !rollingBall_numbers by assumption.
  unfold computed_baseline. rewrite Hmax.
  split; [|do 3 (split; [auto using window_pass_replicate|])].
  - intros Hnan. apply window_min_is_minimum; [|assumption].
    intros E. rewrite E in Hn. cbn in Hn. lia.
  - split; [reflexivity|]. f_equal. apply window_pass_radius_0, xMean_singleton.
Qed.

Lemma wide_window_global_minimum_witness :
  let signal := [0.3; 0.1; 0.2]%float in
  let g := window_min signal in
  let b := rollingBall_buffers (JsNumber <$> signal) 5 1 in
  is_minimum g signal /\
  minima b = replicate 3 g /\
  maxima b = replicate 3 g /\
  baseline b = (fun i => xMean (replicate (window_width 3 1 i) g)) <$> seq 0 3 /\
  rollingBall (numbers signal) {| windowM := Some 5%nat ; windowS := Some 1%nat |}
  = Return (baseline b) /\
  rollingBall (numbers signal) {| windowM := Some 5%nat ; windowS := Some 0%nat |}
  = Return (replicate 3 g).
Proof.
  cbv zeta.
  destruct (wide_window_global_minimum [0.3; 0.1; 0.2]%float 5 1) as (Hg & Hrest).
  - simpl. lia.
  - simpl. lia.
  - split; [|exact Hrest]. apply Hg. repeat constructor.
Defined.

(** * Further properties of [rollingBall] *)

(** ** The bounds computed in the loops *)

(** X1. At every loop index the bounds computed by [Math.max] and [Math.min]
    satisfy [windowLeft <= i < windowRight <= N].  In the third loop,
    [subarray(windowLeft, windowRight)] holds between 1 and [2 * window + 1]
    elements, the element at [i] among them.  In the first two loops the
    helpers receive [windowRight] as [toIndex], the last index to scan: they
    scan the indices from [windowLeft] to [windowRight] brought back into
    range, that is the [subarray] window and, where there is one, the
    element to its right, between 1 and [2 * window + 2] elements. *)
Theorem window_bounds_in_range {A : Type} (array : list A) (i radius : nat) :
  (i < length array)%nat ->
  let n := length array in
  let l := windowLeft i radius in
  let r := windowRight i radius n in
  let last := clamp_index n r in
  (l <= i < r)%nat /\ (r <= n)%nat /\
  length (subarray array l r) = (r - l)%nat /\
  (1 <= r - l <= 2 * radius + 1)%nat /\
  subarray array l r !! (i - l)%nat = array !! i /\
  clamp_index n l = l /\
  last = (if decide (r = n) then n - 1 else r)%nat /\
  (i <= last < n)%nat /\
  (1 <= last + 1 - l <= 2 * radius + 2)%nat /\
  scanned array radius i = subarray array l (last + 1) /\
  scanned array radius i = subarray array l r ++ subarray array r (r + 1).
Proof.
  intros Hi. cbv zeta. rewrite windowLeft_nat, windowRight_nat.
  unfold clamp_index.
  assert (subarray array (Nat.max 0 (i - radius)) (Nat.min (i + radius + 1) (length array))
            !! (i - Nat.max 0 (i - radius))%nat = array !! i) as Hc.
  { rewrite lookup_subarray.
    destruct (decide (i - Nat.max 0 (i - radius)
                      < Nat.min (i + radius + 1) (length array) - Nat.max 0 (i - radius))%nat);
      [f_equal; lia | lia]. }
  assert (length (subarray array (Nat.max 0 (i - radius))
                    (Nat.min (i + radius + 1) (length array)))
          = (Nat.min (i + radius + 1) (length array) - Nat.max 0 (i - radius))%nat) as Hlen
      by (unfold subarray; rewrite length_take, length_drop; lia).
  split; [lia|]. split; [lia|]. split; [exact Hlen|]. split; [lia|].
  split; [exact Hc|].
  split; [destruct (Nat.leb_spec (length array) (Nat.max 0 (i - radius))); lia|].
  split; [destruct (Nat.leb_spec (length array) (Nat.min (i + radius + 1) (length array))),
            (decide (Nat.min (i + radius + 1) (length array) = length array)); lia|].
  split; [destruct (Nat.leb_spec (length array) (Nat.min (i + radius + 1) (length array))); lia|].
  split; [destruct (Nat.leb_spec (length array) (Nat.min (i + radius + 1) (length array))); lia|].
  split.
  - rewrite scanned_bounds. f_equal.
    destruct (Nat.leb_spec (length array) (Nat.min (i + radius + 1) (length array))); lia.
  - rewrite scanned_bounds. apply list_eq. intros k.
    rewrite lookup_subarray.
    destruct (decide (k < Nat.min (i + radius + 1) (length array) - Nat.max 0 (i - radius))%nat)
      as [Hk|Hk].
    + rewrite lookup_app_l by (rewrite Hlen; lia).
      rewrite lookup_subarray.
      destruct (decide _), (decide _); try lia; reflexivity.
    + rewrite lookup_app_r by (rewrite Hlen; lia).
      rewrite Hlen, lookup_subarray.
      destruct (decide _) as [H1|H1], (decide _) as [H2|H2].
      * f_equal. lia.
      * rewrite lookup_ge_None_2; [reflexivity|lia].
      * symmetry. rewrite (proj2 (lookup_ge_None _ _)); [reflexivity|].
        destruct (decide (Nat.min (i + radius + 1) (length array) = length array)); lia.
      * reflexivity.
Qed.

Lemma window_bounds_in_range_witness :
  let array := [5; 1; 7]%float in
  let n := length array in
  let l := windowLeft 0 0 in
  let r := windowRight 0 0 n in
  let last := clamp_index n r in
  (l <= 0 < r)%nat /\ (r <= n)%nat /\
  length (subarray array l r) = (r - l)%nat /\
  (1 <= r - l <= 2 * 0 + 1)%nat /\
  subarray array l r !! (0 - l)%nat = array !! 0%nat /\
  clamp_index n l = l /\
  last = (if decide (r = n) then n - 1 else r)%nat /\
  (0 <= last < n)%nat /\
  (1 <= last + 1 - l <= 2 * 0 + 2)%nat /\
  scanned array 0 0 = subarray array l (last + 1) /\
  scanned array 0 0 = subarray array l r ++ subarray array r (r + 1).
Proof. apply (window_bounds_in_range [5; 1; 7]%float 0 0). simpl. lia. Defined.

(** The clipped windows are symmetric: [j] lies in the window of [i] exactly
    when [i] lies in the window of [j]. *)
Lemma window_index_symmetric (n r i j : nat) :
  (i < n)%nat -> (j < n)%nat ->
  (i - r <= j < Nat.min (i + r + 1) n)%nat <-> (j - r <= i < Nat.min (j + r + 1) n)%nat.
Proof. lia. Qed.

(** ** The minima and maxima against the signal *)

(** X2. The minimum and maximum passes introduce no new value: every entry
    of [minima] and of [maxima] is one of the values of the signal, NaN and
    signed zeros included. *)
Theorem minima_maxima_are_signal_values (signal : list float) (M S : nat) :
  let b := rollingBall_buffers (JsNumber <$> signal) M S in
  Forall (fun m => m ∈ signal) (minima b) /\
  Forall (fun m => m ∈ signal) (maxima b).
Proof.
  cbv zeta. rewrite rollingBall_buffers_numbers. cbn [minima maxima].
  split; apply Forall_forall; intros m Hm.
  - now apply scanned_minima_elem in Hm.
  - now apply scanned_maxima_elem, scanned_minima_elem in Hm.
Qed.

Lemma scanned_minima_below (signal : list float) (M i : nat) (x mn : float) :
  nan_free signal -> signal !! i = Some x ->
  scanned_minima signal M !! i = Some mn -> (mn <=? x)%float = true.
Proof.
  intros Hnan Hx Hmn. pose proof (lookup_lt_Some _ _ _ Hx) as Hi.
  rewrite lookup_scanned_minima in Hmn by assumption. injection Hmn as <-.
  apply window_min_is_minimum;
    [now apply reach_nonempty | now apply reach_nan_free | now apply elem_of_reach_centre].
Qed.

(** The index next to [i], or [i] itself at the end of the array. *)
Definition next_index (n i : nat) : nat := Nat.min (i + 1) (n - 1).

Lemma scanned_maxima_below_next (signal : list float) (M i : nat) (x mx : float) :
  nan_free signal -> (i < length signal)%nat ->
  signal !! next_index (length signal) i = Some x ->
  scanned_maxima signal M !! i = Some mx -> (mx <=? x)%float = true.
Proof.
  intros Hnan Hi Hx Hmx.
  pose proof (length_scanned_minima signal M) as Lmin.
  rewrite lookup_scanned_maxima in Hmx by assumption. injection Hmx as <-.
  assert (window_max (scanned (scanned_minima signal M) M i)
            ∈ scanned (scanned_minima signal M) M i) as Hin
      by (apply window_max_elem, reach_nonempty; lia).
  apply elem_of_reach in Hin as (j & Hj & Hmj). rewrite Lmin in Hj.
  rewrite lookup_scanned_minima in Hmj by lia.
  injection Hmj as Hmj. rewrite <- Hmj.
  apply window_min_is_minimum;
    [apply reach_nonempty; lia | now apply reach_nan_free |].
  apply elem_of_reach. exists (next_index (length signal) i).
  split; [unfold next_index; lia|assumption].
Qed.

Lemma scanned_minima_le_maxima (signal : list float) (M i : nat) (mn mx : float) :
  nan_free signal ->
  scanned_minima signal M !! i = Some mn ->
  scanned_maxima signal M !! i = Some mx -> (mn <=? mx)%float = true.
Proof.
  intros Hnan Hmn Hmx. pose proof (lookup_lt_Some _ _ _ Hmn) as Hi.
  rewrite length_scanned_minima in Hi.
  rewrite lookup_scanned_maxima in Hmx by assumption. injection Hmx as <-.
  apply window_max_is_maximum;
    [apply reach_nonempty; now rewrite length_scanned_minima
    | now apply reach_nan_free, scanned_minima_nan_free
    | now apply elem_of_reach_centre].
Qed.

(** X3. On a signal without NaN, [minima[i]] is at most [signal[i]] and at
    most [maxima[i]], and [maxima[i]] is at most the signal value one index
    to the right, [signal[i + 1]] (at the last index, [signal[i]]).  The
    maxima need not stay below [signal[i]] itself. *)
Theorem maxima_between_minima_and_next_signal
    (signal : list float) (M S i : nat) (x x' : float) :
  nan_free signal -> signal !! i = Some x ->
  signal !! next_index (length signal) i = Some x' ->
  let b := rollingBall_buffers (JsNumber <$> signal) M S in
  exists mn mx,
    minima b !! i = Some mn /\ maxima b !! i = Some mx /\
    (mn <=? x)%float = true /\ (mn <=? mx)%float = true /\
    (mx <=? x')%float = true.
Proof.
  intros Hnan Hx Hx'. cbv zeta. rewrite rollingBall_buffers_numbers. cbn [minima maxima].
  pose proof (lookup_lt_Some _ _ _ Hx) as Hi.
  exists (window_min (scanned signal M i)),
         (window_max (scanned (scanned_minima signal M) M i)).
  pose proof (lookup_scanned_minima signal M i Hi) as Hmn.
  pose proof (lookup_scanned_maxima signal M i Hi) as Hmx.
  split; [assumption|]. split; [assumption|].
  split; [eapply scanned_minima_below; eassumption|].
  split; [eapply scanned_minima_le_maxima; eassumption|].
  eapply scanned_maxima_below_next; eassumption.
Qed.

Lemma maxima_between_minima_and_next_signal_witness :
  let b := rollingBall_buffers (JsNumber <$> [4; 2; 9; 7; 3]%float) 1 2 in
  exists mn mx,
    minima b !! 1%nat = Some mn /\ maxima b !! 1%nat = Some mx /\
    (mn <=? 2)%float = true /\ (mn <=? mx)%float = true /\
    (mx <=? 9)%float = true.
Proof.
  apply (maxima_between_minima_and_next_signal [4; 2; 9; 7; 3]%float 1 2 1 2%float 9%float).
  - repeat constructor.
  - reflexivity.
  - reflexivity.
Defined.

(** The signal moved one index to the left, its last value kept at the
    end. *)
Definition shifted_left (signal : list float) : list float :=
  drop 1 signal ++ drop (length signal - 1) signal.

Lemma lookup_shifted_left (signal : list float) (i : nat) :
  (i < length signal)%nat ->
  shifted_left signal !! i = signal !! next_index (length signal) i.
Proof.
  intros Hi. unfold shifted_left, next_index.
  destruct (decide (i + 1 < length signal)%nat) as [Hlt|Hge].
  - rewrite lookup_app_l by (rewrite length_drop; lia).
    rewrite lookup_drop. f_equal. lia.
  - rewrite lookup_app_r by (rewrite length_drop; lia).
    rewrite length_drop, lookup_drop. f_equal. lia.
Qed.

(** X4. With [windowS = 0] the smoothing pass copies the maxima, so on a
    signal without NaN the returned baseline has the length of the signal
    and never exceeds the signal moved one index to the left:
    [baseline[i] <= signal[i + 1]], and [baseline[N - 1] <= signal[N - 1]].
    It can exceed [signal[i]]. *)
Theorem unsmoothed_baseline_below_shifted_signal (signal : list float) (M : nat) :
  (1 <= length signal)%nat -> nan_free signal ->
  exists result,
    rollingBall (numbers signal) {| windowM := Some M ; windowS := Some 0%nat |}
    = Return result /\
    result = maxima (rollingBall_buffers (JsNumber <$> signal) M 0) /\
    Forall2 (fun b x => (b <=? x)%float = true) result (shifted_left signal).
Proof.
  intros Hn Hnan. exists (scanned_maxima signal M).
  rewrite rollingBall_numbers by assumption.
  rewrite rollingBall_buffers_numbers. cbn [maxima].
  split; [|split; [reflexivity|]].
  - f_equal. unfold computed_baseline. apply window_pass_radius_0, xMean_singleton.
  - apply Forall2_same_length_lookup. split.
    + rewrite length_scanned_maxima. unfold shifted_left.
      rewrite length_app, !length_drop. lia.
    + intros i mx x Hmx Hx. pose proof (lookup_lt_Some _ _ _ Hmx) as Hi.
      rewrite length_scanned_maxima in Hi.
      rewrite lookup_shifted_left in Hx by assumption.
      eapply scanned_maxima_below_next; eassumption.
Qed.

Lemma unsmoothed_baseline_below_shifted_signal_witness :
  exists result,
    rollingBall (numbers [4; 2; 9; 7; 3]%float)
      {| windowM := Some 1%nat ; windowS := Some 0%nat |} = Return result /\
    result = maxima (rollingBall_buffers (JsNumber <$> [4; 2; 9; 7; 3]%float) 1 0) /\
    Forall2 (fun b x => (b <=? x)%float = true) result
      (shifted_left [4; 2; 9; 7; 3]%float).
Proof.
  apply (unsmoothed_baseline_below_shifted_signal [4; 2; 9; 7; 3]%float 1).
  - simpl. lia.
  - repeat constructor.
Defined.

(** ** Monotonicity of the minimum and maximum passes *)

Definition pointwise_le (xs ys : list float) : Prop :=
  Forall2 (fun x y => (x <=? y)%float = true) xs ys.

Lemma pointwise_le_nan_free (xs ys : list float) :
  pointwise_le xs ys -> nan_free xs /\ nan_free ys.
Proof.
  unfold pointwise_le, nan_free. induction 1 as [|x y xs ys Hxy _ [IHx IHy]].
  - split; constructor.
  - destruct (leb_not_nan _ _ Hxy). split; constructor; assumption.
Qed.

Lemma pointwise_le_reach (xs ys : list float) (a b i : nat) :
  pointwise_le xs ys -> pointwise_le (reach xs a b i) (reach ys a b i).
Proof.
  unfold pointwise_le. intros H. unfold reach, subarray.
  rewrite <- (Forall2_length _ _ _ H). now apply Forall2_take, Forall2_drop.
Qed.

Lemma window_min_monotone (w w' : list float) :
  w <> [] -> pointwise_le w w' -> (window_min w <=? window_min w')%float = true.
Proof.
  intros Hw H. destruct (pointwise_le_nan_free _ _ H) as [Hn Hn'].
  assert (w' <> []) as Hw'
      by (intros ->; apply Forall2_nil_inv_r in H; contradiction).
  destruct (list_elem_of_lookup_1 _ _ (window_min_elem w' Hw')) as [k Hk].
  destruct (Forall2_lookup_r _ _ _ _ _ H Hk) as (y & Hy & Hle).
  eapply leb_trans; [|exact Hle].
  apply window_min_is_minimum; [assumption..|]. eapply list_elem_of_lookup_2, Hy.
Qed.

Lemma window_max_monotone (w w' : list float) :
  w <> [] -> pointwise_le w w' -> (window_max w <=? window_max w')%float = true.
Proof.
  intros Hw H. destruct (pointwise_le_nan_free _ _ H) as [Hn Hn'].
  assert (w' <> []) as Hw'
      by (intros ->; apply Forall2_nil_inv_r in H; contradiction).
  destruct (list_elem_of_lookup_1 _ _ (window_max_elem w Hw)) as [k Hk].
  destruct (Forall2_lookup_l _ _ _ _ _ H Hk) as (y & Hy & Hle).
  eapply leb_trans; [exact Hle|].
  apply window_max_is_maximum; [assumption..|]. eapply list_elem_of_lookup_2, Hy.
Qed.

Lemma reach_pass_monotone (f : list float -> float) (xs ys : list float) (a b : nat) :
  (forall w w', w <> [] -> pointwise_le w w' -> (f w <=? f w')%float = true) ->
  pointwise_le xs ys -> pointwise_le (reach_pass f xs a b) (reach_pass f ys a b).
Proof.
  intros Hf H. pose proof (Forall2_length _ _ _ H) as Hl.
  apply Forall2_same_length_lookup. split; [now rewrite !length_reach_pass|].
  intros i x y Hx Hy.
  pose proof (lookup_lt_Some _ _ _ Hx) as Hi. rewrite length_reach_pass in Hi.
  rewrite lookup_reach_pass in Hx by assumption.
  rewrite lookup_reach_pass in Hy by lia.
  injection Hx as <-. injection Hy as <-.
  apply Hf; [now apply reach_nonempty | now apply pointwise_le_reach].
Qed.

(** X5. The minimum and maximum passes are monotone: raising the signal
    pointwise (in the floating-point order, which excludes NaN) never lowers
    an entry of [minima] or of [maxima]. *)
Theorem minima_maxima_monotone (xs ys : list float) (M S S' : nat) :
  pointwise_le xs ys ->
  let b := rollingBall_buffers (JsNumber <$> xs) M S in
  let b' := rollingBall_buffers (JsNumber <$> ys) M S' in
  pointwise_le (minima b) (minima b') /\ pointwise_le (maxima b) (maxima b').
Proof.
  intros H. cbv zeta. rewrite !rollingBall_buffers_numbers. cbn [minima maxima].
  assert (pointwise_le (scanned_minima xs M) (scanned_minima ys M)) as Hmin
      by (apply reach_pass_monotone; [apply window_min_monotone | assumption]).
  split; [exact Hmin|].
  apply reach_pass_monotone; [apply window_max_monotone | exact Hmin].
Qed.

Lemma minima_maxima_monotone_witness :
  let b := rollingBall_buffers (JsNumber <$> [4; 2; 9; 7; 3]%float) 1 0 in
  let b' := rollingBall_buffers (JsNumber <$> [5; 2; 9.5; 8; 3]%float) 1 2 in
  pointwise_le (minima b) (minima b') /\ pointwise_le (maxima b) (maxima b').
Proof.
  apply (minima_maxima_monotone [4; 2; 9; 7; 3]%float [5; 2; 9.5; 8; 3]%float 1 0 2).
  repeat constructor.
Defined.

(** ** Locality *)

(** Two sequences agree on the indices between [lo] and [hi]. *)
Definition agree_on {A : Type} (s s' : list A) (lo hi : nat) : Prop :=
  forall j, (lo <= j <= hi)%nat -> s !! j = s' !! j.

Lemma window_agree {A : Type} (s s' : list A) (r i : nat) :
  length s = length s' -> agree_on s s' (i - r) (i + r) ->
  window s r i = window s' r i.
Proof.
  intros Hl H. apply list_eq. intros k. unfold window.
  rewrite !lookup_subarray, <- Hl.
  destruct (decide (k < Nat.min (i + r + 1) (length s) - Nat.max 0 (i - r))%nat);
    [|reflexivity].
  apply H. lia.
Qed.

Lemma window_pass_agree (f : list float -> float) (s s' : list float) (r lo hi : nat) :
  length s = length s' -> agree_on s s' (lo - r) (hi + r) ->
  agree_on (window_pass f s r) (window_pass f s' r) lo hi.
Proof.
  intros Hl H j Hj. destruct (decide (j < length s)%nat) as [Hlt|Hge].
  - rewrite !lookup_window_pass by lia. f_equal. f_equal.
    apply window_agree; [assumption|]. intros k Hk. apply H. lia.
  - rewrite !(lookup_ge_None_2 (window_pass _ _ _)) by (rewrite length_window_pass; lia).
    reflexivity.
Qed.

Lemma reach_agree {A : Type} (s s' : list A) (a b i : nat) :
  length s = length s' -> agree_on s s' (i - a) (i + b) ->
  reach s a b i = reach s' a b i.
Proof.
  intros Hl H. apply list_eq. intros k. unfold reach.
  rewrite !lookup_subarray, <- Hl.
  destruct (decide (k < Nat.min (i + b + 1) (length s) - Nat.max 0 (i - a))%nat);
    [|reflexivity].
  apply H. lia.
Qed.

Lemma reach_pass_agree (f : list float -> float) (s s' : list float) (a b lo hi : nat) :
  length s = length s' -> agree_on s s' (lo - a) (hi + b) ->
  agree_on (reach_pass f s a b) (reach_pass f s' a b) lo hi.
Proof.
  intros Hl H j Hj. destruct (decide (j < length s)%nat) as [Hlt|Hge].
  - rewrite !lookup_reach_pass by lia. f_equal. f_equal.
    apply reach_agree; [assumption|]. intros k Hk. apply H. lia.
  - rewrite !(lookup_ge_None_2 (reach_pass _ _ _ _)) by (rewrite length_reach_pass; lia).
    reflexivity.
Qed.

(** X6. The baseline is local: [baseline[i]] depends only on the signal
    values from [i - (2 * windowM + windowS)] to
    [i + 2 * windowM + windowS + 2].  Two signals of the same length that
    agree there have the same baseline value at [i]. *)
Theorem baseline_is_local (xs ys : list float) (M S i : nat) :
  length xs = length ys ->
  agree_on xs ys (i - (2 * M + S)) (i + (2 * M + S + 2)) ->
  baseline (rollingBall_buffers (JsNumber <$> xs) M S) !! i
  = baseline (rollingBall_buffers (JsNumber <$> ys) M S) !! i.
Proof.
  intros Hl H. rewrite !rollingBall_buffers_numbers. cbn [baseline].
  unfold computed_baseline, scanned_maxima, scanned_minima, scan_pass.
  apply (window_pass_agree xMean _ _ S i i); [now rewrite !length_reach_pass| |lia].
  apply reach_pass_agree; [now rewrite !length_reach_pass|].
  apply reach_pass_agree; [assumption|].
  intros j Hj. apply H. lia.
Qed.

Lemma baseline_is_local_witness :
  baseline (rollingBall_buffers (JsNumber <$> [4; 2; 9; 7; 3; 8; 1]%float) 1 1) !! 0%nat
  = baseline (rollingBall_buffers (JsNumber <$> [4; 2; 9; 7; 3; 8; 6]%float) 1 1) !! 0%nat.
Proof.
  apply (baseline_is_local [4; 2; 9; 7; 3; 8; 1]%float [4; 2; 9; 7; 3; 8; 6]%float 1 1 0).
  - reflexivity.
  - intros j Hj. do 6 (destruct j as [|j]; [reflexivity|]). simpl in Hj. lia.
Defined.

(** The right end of that range is reached: two signals that differ only at
    index [i + 2 * windowM + windowS + 2] can differ in [baseline[i]]. *)
Lemma baseline_reach_attained :
  let xs := [4; 2; 9; 7; 3; 8; 1]%float in
  let ys := [4; 2; 9; 7; 3; 0; 1]%float in
  agree_on xs ys 0 4 /\
  baseline (rollingBall_buffers (JsNumber <$> xs) 1 1) !! 1%nat
  = Some 2.6666666666666665%float /\
  baseline (rollingBall_buffers (JsNumber <$> ys) 1 1) !! 1%nat = Some 2%float.
Proof.
  cbv zeta. split; [|split; reflexivity].
  intros j Hj. do 5 (destruct j as [|j]; [reflexivity|]). lia.
Qed.

(** ** Radii beyond the signal *)

Lemma windowLeft_clip (i r n : nat) :
  (i < n)%nat -> windowLeft i (Nat.min r (n - 1)) = windowLeft i r.
Proof. unfold windowLeft. lia. Qed.

Lemma windowRight_clip (i r n : nat) :
  (i < n)%nat -> windowRight i (Nat.min r (n - 1)) n = windowRight i r n.
Proof. unfold windowRight. lia. Qed.

Lemma window_clip {A : Type} (s : list A) (r i : nat) :
  (i < length s)%nat -> window s (Nat.min r (length s - 1)) i = window s r i.
Proof. intros Hi. unfold window. f_equal; lia. Qed.

Lemma minima_loop_clip (elems : list JsPrim) (M : nat) :
  minima_loop elems (Nat.min M (length elems - 1)) (Float64Array (length elems))
  = minima_loop elems M (Float64Array (length elems)).
Proof.
  rewrite !minima_loop_eq. apply fmap_seq_ext. intros i Hi.
  now rewrite windowLeft_clip, windowRight_clip by assumption.
Qed.

Lemma maxima_loop_clip (mins : list float) (M : nat) :
  maxima_loop mins (Nat.min M (length mins - 1)) (Float64Array (length mins))
  = maxima_loop mins M (Float64Array (length mins)).
Proof.
  rewrite !maxima_loop_eq. apply fmap_seq_ext. intros i Hi.
  now rewrite windowLeft_clip, windowRight_clip by assumption.
Qed.

Lemma baseline_loop_clip (mins maxs : list float) (S : nat) :
  length maxs = length mins ->
  baseline_loop mins maxs (Nat.min S (length mins - 1)) (Float64Array (length mins))
  = baseline_loop mins maxs S (Float64Array (length mins)).
Proof.
  intros Hl. rewrite !baseline_loop_eq. apply fmap_seq_ext. intros i Hi.
  rewrite <- Hl. now rewrite window_clip by lia.
Qed.

(** X7. A radius larger than [N - 1] acts as [N - 1]: for every non-empty
    array, whatever its elements, the result with radii [windowM] and
    [windowS] is the result with both radii cut down to [N - 1]. *)
Theorem radii_saturate (elems : list JsPrim) (M S : nat) :
  (1 <= length elems)%nat ->
  let N := length elems in
  rollingBall (JsAnyArray elems) {| windowM := Some M ; windowS := Some S |}
  = rollingBall (JsAnyArray elems)
      {| windowM := Some (Nat.min M (N - 1)) ; windowS := Some (Nat.min S (N - 1)) |}.
Proof.
  intros Hn. cbv zeta. rewrite !rollingBall_array by assumption.
  unfold radiusM, radiusS, default. cbn [windowM windowS from_option id]. f_equal.
  unfold rollingBall_buffers. cbv zeta. cbn [baseline].
  rewrite minima_loop_clip.
  set (mins := minima_loop elems M _).
  assert (length mins = length elems) as Hl by apply length_minima_loop.
  rewrite <- Hl. rewrite maxima_loop_clip.
  set (maxs := maxima_loop mins M _).
  assert (length maxs = length mins) as Hl'
      by (unfold maxs; now rewrite maxima_loop_eq, length_fmap, length_seq).
  now rewrite baseline_loop_clip.
Qed.

Lemma radii_saturate_witness :
  rollingBall (JsAnyArray [JsNumber 4; JsNull; JsNumber 9])
    {| windowM := Some 7%nat ; windowS := Some 1%nat |}
  = rollingBall (JsAnyArray [JsNumber 4; JsNull; JsNumber 9])
      {| windowM := Some 2%nat ; windowS := Some 1%nat |}.
Proof.
  apply (radii_saturate [JsNumber 4; JsNull; JsNumber 9] 7 1). simpl. lia.
Defined.

(** X8. When [windowS >= N - 1] every smoothing window is the whole [maxima]
    array: the baseline is flat, each entry being the mean of all maxima. *)
Theorem wide_smoothing_flat_baseline (elems : list JsPrim) (M S : nat) :
  (length elems - 1 <= S)%nat ->
  let b := rollingBall_buffers elems M S in
  baseline b = replicate (length elems) (xMean (maxima b)).
Proof.
  intros HS. unfold rollingBall_buffers. cbv zeta. cbn [baseline maxima].
  set (mins := minima_loop elems M _).
  assert (length mins = length elems) as Hl by apply length_minima_loop.
  rewrite <- Hl in HS |- *.
  set (maxs := maxima_loop mins M _).
  assert (length maxs = length mins) as Hl'
      by (unfold maxs; now rewrite maxima_loop_eq, length_fmap, length_seq).
  rewrite baseline_loop_eq, <- fmap_seq_const.
  apply fmap_seq_ext. intros i Hi. now rewrite window_whole by lia.
Qed.

Lemma wide_smoothing_flat_baseline_witness :
  let b := rollingBall_buffers [JsNumber 4; JsNumber 2; JsNumber 9] 1 2 in
  baseline b = replicate 3 (xMean (maxima b)).
Proof.
  apply (wide_smoothing_flat_baseline [JsNumber 4; JsNumber 2; JsNumber 9] 1 2).
  simpl. lia.
Defined.

(** ** The default radii *)

Lemma round_percent_bounds (N : nat) :
  let m := Z.of_nat (round_percent 4 N) in
  let s := Z.of_nat (round_percent 8 N) in
  100 * m <= 4 * Z.of_nat N + 50 < 100 * m + 100 /\
  100 * s <= 8 * Z.of_nat N + 50 < 100 * s + 100.
Proof.
  cbv zeta. unfold round_percent.
  rewrite !Z2Nat.id by (apply Z.div_pos; lia).
  pose proof (Z.div_mod (4 * Z.of_nat N + 50) 100 ltac:(lia)) as H4.
  pose proof (Z.mod_pos_bound (4 * Z.of_nat N + 50) 100 ltac:(lia)) as B4.
  pose proof (Z.div_mod (8 * Z.of_nat N + 50) 100 ltac:(lia)) as H8.
  pose proof (Z.mod_pos_bound (8 * Z.of_nat N + 50) 100 ltac:(lia)) as B8.
  lia.
Qed.

(** X9. For every length [1 <= N < 2^48] the default radii satisfy
    [windowM <= windowS <= 2 * windowM + 1] and [windowS < N], and the length
    is within 12 points of [25 * windowM]. *)
Theorem default_radii_bounds (N : nat) :
  1 <= Z.of_nat N < 2 ^ 48 ->
  let m := defaultWindowM N in
  let s := defaultWindowS N in
  (m <= s <= 2 * m + 1)%nat /\ (s < N)%nat /\ (25 * m - 12 <= N <= 25 * m + 12)%nat.
Proof.
  intros HN. cbv zeta.
  rewrite (defaultWindowM_exact _ HN), (defaultWindowS_exact _ HN).
  pose proof (round_percent_bounds N) as [H4 H8]. lia.
Qed.

Lemma default_radii_bounds_witness :
  let m := defaultWindowM 1000 in
  let s := defaultWindowS 1000 in
  (m <= s <= 2 * m + 1)%nat /\ (s < 1000)%nat /\
  (25 * m - 12 <= 1000 <= 25 * m + 12)%nat.
Proof. apply (default_radii_bounds 1000). simpl. lia. Defined.

Lemma subarray_clip {A : Type} (l : list A) (a b : nat) :
  subarray l a (Nat.min b (length l)) = subarray l a b.
Proof.
  apply list_eq. intros k. rewrite !lookup_subarray.
  destruct (decide _) as [H1|H1], (decide _) as [H2|H2]; try reflexivity; try lia.
  symmetry. apply lookup_ge_None_2. lia.
Qed.

(** X10. Short signals under the default options: up to 12 points the
    default [windowM] is 0 and the default [windowS] is 0 up to 6 points and
    1 from 7 to 12.  With [windowM = 0] each minimum is taken over the point
    and its right neighbour and each maximum over the minimum and its right
    neighbour, so up to 6 points the result is the array of those maxima. *)
Theorem short_signal_defaults (signal : list float) :
  (1 <= length signal <= 12)%nat ->
  let N := length signal in
  let b := rollingBall_buffers (JsNumber <$> signal) 0 (defaultWindowS N) in
  defaultWindowM N = 0%nat /\
  defaultWindowS N = (if decide (N <= 6)%nat then 0 else 1)%nat /\
  rollingBall (numbers signal) {| windowM := None ; windowS := None |}
  = Return (baseline b) /\
  (forall i, (i < N)%nat ->
     minima b !! i = Some (window_min (subarray signal i (i + 2))) /\
     maxima b !! i = Some (window_max (subarray (minima b) i (i + 2)))) /\
  ((N <= 6)%nat ->
   rollingBall (numbers signal) {| windowM := None ; windowS := None |}
   = Return (maxima b)).
Proof.
  intros HN. cbv zeta.
  assert (1 <= Z.of_nat (length signal) < 2 ^ 48) as HN'
      by (change (2 ^ 48) with 281474976710656; lia).
  pose proof (round_percent_bounds (length signal)) as [H4 H8].
  assert (defaultWindowM (length signal) = 0%nat) as HM
      by (rewrite (defaultWindowM_exact _ HN'); lia).
  assert (defaultWindowS (length signal)
          = (if decide (length signal <= 6)%nat then 0 else 1)%nat) as HS
      by (rewrite (defaultWindowS_exact _ HN'); destruct (decide _); lia).
  assert (rollingBall (numbers signal) {| windowM := None ; windowS := None |}
          = Return (baseline (rollingBall_buffers (JsNumber <$> signal) 0
                                (defaultWindowS (length signal))))) as Hr.
  { unfold numbers. rewrite rollingBall_array by (rewrite length_fmap; lia).
    unfold radiusM, radiusS, default. cbn [windowM windowS from_option].
    now rewrite length_fmap, HM. }
  split; [exact HM|]. split; [exact HS|]. split; [exact Hr|].
  rewrite Hr, rollingBall_buffers_numbers. cbn [minima maxima baseline].
  split.
  - intros i Hi. rewrite lookup_scanned_minima, lookup_scanned_maxima by assumption.
    rewrite !scanned_bounds, length_scanned_minima.
    rewrite !Nat.sub_0_r, !Nat.add_0_r, !Nat.max_0_l.
    rewrite subarray_clip, <- (length_scanned_minima signal 0) at 1.
    now rewrite subarray_clip.
  - intros H6. rewrite HS. destruct (decide _); [|lia].
    f_equal. unfold computed_baseline. apply window_pass_radius_0, xMean_singleton.
Qed.

Lemma short_signal_defaults_witness :
  let signal := [4; 2; 9; 7; 3]%float in
  let b := rollingBall_buffers (JsNumber <$> signal) 0 (defaultWindowS 5) in
  defaultWindowM 5 = 0%nat /\
  defaultWindowS 5 = (if decide (5 <= 6)%nat then 0 else 1)%nat /\
  rollingBall (numbers signal) {| windowM := None ; windowS := None |}
  = Return (baseline b) /\
  (forall i, (i < 5)%nat ->
     minima b !! i = Some (window_min (subarray signal i (i + 2))) /\
     maxima b !! i = Some (window_max (subarray (minima b) i (i + 2)))) /\
  ((5 <= 6)%nat ->
   rollingBall (numbers signal) {| windowM := None ; windowS := None |}
   = Return (maxima b)).
Proof. apply (short_signal_defaults [4; 2; 9; 7; 3]%float). simpl. lia. Defined.

(** On those five points the default result is not the signal. *)
Lemma short_signal_default_result :
  rollingBall (numbers [4; 2; 9; 7; 3]%float) {| windowM := None ; windowS := None |}
  = Return [2; 7; 7; 3; 3]%float.
Proof. reflexivity. Qed.

(** ** A single-point peak *)

Lemma ltb_asym (x y : float) : (x <? y)%float = true -> (y <? x)%float = false.
Proof.
  intros H. pose proof (ltb_leb _ _ H) as Hle.
  destruct (leb_not_nan _ _ Hle) as [Ex Ey].
  revert H. rewrite !FloatAxioms.ltb_spec. unfold SFltb.
  apply is_nan_spec in Ex, Ey.
  pose proof (SFcompare_key _ _ Ex Ey) as K1.
  pose proof (SFcompare_key _ _ Ey Ex) as K2.
  destruct (SFcompare (Prim2SF x) (Prim2SF y)) as [[]|],
           (SFcompare (Prim2SF y) (Prim2SF x)) as [[]|]; intros; key_cases.
Qed.

(** The minimum scan of a window whose values are [c] or above [c], with
    [c] present, is [c] itself. *)
Definition at_or_above (c y : float) : Prop := y = c \/ (c <? y)%float = true.

Lemma min_scan_from_floor (c : float) (rest : list float) :
  Forall (at_or_above c) rest ->
  fold_left (fun m y => if (y <? m)%float then y else m) rest c = c.
Proof.
  induction 1 as [|y rest [->|Hy] _ IH]; cbn [fold_left].
  - reflexivity.
  - now rewrite ltb_irrefl.
  - now rewrite (ltb_asym _ _ Hy).
Qed.

Lemma min_scan_reaches_floor (c : float) (rest : list float) (first : float) :
  at_or_above c first -> Forall (at_or_above c) rest -> c ∈ first :: rest ->
  fold_left (fun m y => if (y <? m)%float then y else m) rest first = c.
Proof.
  intros Hf Hall. revert first Hf.
  induction Hall as [|y rest Hy Hall IH]; intros first Hf Hc.
  - apply list_elem_of_singleton in Hc as <-. reflexivity.
  - destruct Hf as [->|Hf]; [apply min_scan_from_floor; now constructor|].
    cbn [fold_left]. apply IH.
    + destruct (y <? first)%float; [assumption|now right].
    + apply elem_of_cons in Hc as [->|Hc];
        [now rewrite ltb_irrefl in Hf|].
      apply elem_of_cons in Hc as [<-|Hc].
      * rewrite Hf. apply list_elem_of_here.
      * now apply list_elem_of_further.
Qed.

Lemma window_min_floor (c : float) (w : list float) :
  Forall (at_or_above c) w -> c ∈ w -> window_min w = c.
Proof.
  intros Hall Hc. destruct w as [|first rest]; [now apply elem_of_nil in Hc|].
  apply Forall_cons in Hall as [Hf Hall]. now apply min_scan_reaches_floor.
Qed.

(** X11. Peaks narrower than the window leave no trace: when every value of
    the signal is a floor value [c] or strictly above it and every index has
    a floor point within distance [windowM], the minima and the maxima
    consist entirely of [c], and the result is the result on the constant
    signal [c]. *)
Theorem narrow_peaks_removed (c : float) (signal : list float) (M S : nat) :
  (1 <= length signal)%nat ->
  Forall (at_or_above c) signal ->
  (forall i, (i < length signal)%nat ->
     exists j, (i - M <= j <= i + M)%nat /\ signal !! j = Some c) ->
  let n := length signal in
  let b := rollingBall_buffers (JsNumber <$> signal) M S in
  minima b = replicate n c /\
  maxima b = replicate n c /\
  rollingBall (numbers signal) {| windowM := Some M ; windowS := Some S |}
  = rollingBall (numbers (replicate n c)) {| windowM := Some M ; windowS := Some S |}.
Proof.
  intros Hn Hall Hfloor. cbv zeta.
  assert (scanned_minima signal M = replicate (length signal) c) as Hmin.
  { unfold scanned_minima, scan_pass, reach_pass. rewrite <- fmap_seq_const.
    apply fmap_seq_ext. intros i Hi. apply window_min_floor.
    - apply Forall_forall. intros y Hy. apply elem_of_reach_inv in Hy.
      rewrite Forall_forall in Hall. now apply Hall.
    - destruct (Hfloor i Hi) as (j & Hj & Hc).
      apply window_in_scanned, elem_of_window. exists j. split; [|assumption].
      apply lookup_lt_Some in Hc. lia. }
  destruct (scanned_constant c (length signal) M S) as (Cmin & Cmax & _ & _).
  assert (scanned_maxima signal M = scanned_maxima (replicate (length signal) c) M)
    as Hmax by (unfold scanned_maxima; now rewrite Hmin, Cmin).
  rewrite rollingBall_buffers_numbers. cbn [minima maxima].
  split; [exact Hmin|]. split; [now rewrite Hmax|].
  rewrite !rollingBall_numbers by (rewrite ?length_replicate; lia).
  unfold computed_baseline. now rewrite Hmax.
Qed.

Lemma narrow_peaks_removed_witness :
  let signal := [1; 9; 1; 1; 8; 7; 1]%float in
  let b := rollingBall_buffers (JsNumber <$> signal) 2 1 in
  minima b = replicate 7 1%float /\
  maxima b = replicate 7 1%float /\
  rollingBall (numbers signal) {| windowM := Some 2%nat ; windowS := Some 1%nat |}
  = rollingBall (numbers (replicate 7 1%float))
      {| windowM := Some 2%nat ; windowS := Some 1%nat |}.
Proof.
  apply (narrow_peaks_removed 1%float [1; 9; 1; 1; 8; 7; 1]%float 2 1).
  - simpl. lia.
  - repeat constructor; first [now left | now right].
  - intros i Hi.
    destruct i as [|[|[|[|[|[|[|i]]]]]]];
      [exists 0%nat | exists 0%nat | exists 2%nat | exists 3%nat
      | exists 3%nat | exists 6%nat | exists 6%nat | simpl in Hi; lia];
      (split; [lia | reflexivity]).
Defined.

(** ** The three buffers, index by index *)

(** X12. What the three loops leave in the buffers of a numeric signal, at
    every index [i]: [minima[i]] is the minimum scan of the signal over the
    indices from [max(0, i - windowM)] to [min(i + windowM + 1, N - 1)], both
    included, [maxima[i]] the maximum scan of [minima] over the same indices,
    and [baseline[i]] the mean of [maxima] over
    [[max(0, i - windowS), min(i + windowS + 1, N))].  On a signal without
    NaN the two scans return a least and a greatest element of their
    range. *)
Theorem buffers_index_by_index (signal : list float) (M S i : nat) :
  (i < length signal)%nat ->
  let N := length signal in
  let b := rollingBall_buffers (JsNumber <$> signal) M S in
  let first := Nat.max 0 (i - M) in
  let last := Nat.min (i + M + 1) (N - 1) in
  let ws := subarray signal first (last + 1) in
  let wm := subarray (minima b) first (last + 1) in
  minima b !! i = Some (window_min ws) /\
  maxima b !! i = Some (window_max wm) /\
  baseline b !! i
  = Some (xMean (subarray (maxima b) (Nat.max 0 (i - S)) (Nat.min (i + S + 1) N))) /\
  length ws = (last + 1 - first)%nat /\
  length wm = (last + 1 - first)%nat /\
  (nan_free signal ->
   is_minimum (window_min ws) ws /\ is_maximum (window_max wm) wm).
Proof.
  intros Hi. cbv zeta. rewrite rollingBall_buffers_numbers.
  cbn [minima maxima baseline].
  pose proof (length_scanned_minima signal M) as Lmin.
  pose proof (length_scanned_maxima signal M) as Lmax.
  replace (Nat.min (i + M + 1) (length signal - 1) + 1)%nat
    with (Nat.min (i + M + 2) (length signal)) by lia.
  assert (subarray signal (Nat.max 0 (i - M)) (Nat.min (i + M + 2) (length signal))
          = scanned signal M i) as Es by (now rewrite scanned_bounds).
  assert (subarray (scanned_minima signal M) (Nat.max 0 (i - M))
            (Nat.min (i + M + 2) (length signal))
          = scanned (scanned_minima signal M) M i) as Em
      by (now rewrite scanned_bounds, Lmin).
  split; [rewrite Es; now apply lookup_scanned_minima|].
  split; [rewrite Em; now apply lookup_scanned_maxima|].
  split.
  { unfold computed_baseline. rewrite lookup_window_pass by lia.
    unfold window. now rewrite Lmax. }
  split; [unfold subarray; rewrite length_take, length_drop; lia|].
  split; [unfold subarray; rewrite length_take, length_drop; lia|].
  intros Hnan. rewrite Es, Em. split.
  - apply window_min_is_minimum; [now apply reach_nonempty|now apply reach_nan_free].
  - apply window_max_is_maximum; [apply reach_nonempty; lia|].
    now apply reach_nan_free, scanned_minima_nan_free.
Qed.

Lemma buffers_index_by_index_witness :
  let signal := [4; 2; 9; 7; 3]%float in
  let N := length signal in
  let b := rollingBall_buffers (JsNumber <$> signal) 1 1 in
  let first := Nat.max 0 (1 - 1) in
  let last := Nat.min (1 + 1 + 1) (N - 1) in
  let ws := subarray signal first (last + 1) in
  let wm := subarray (minima b) first (last + 1) in
  minima b !! 1%nat = Some (window_min ws) /\
  maxima b !! 1%nat = Some (window_max wm) /\
  baseline b !! 1%nat
  = Some (xMean (subarray (maxima b) (Nat.max 0 (1 - 1)) (Nat.min (1 + 1 + 1) N))) /\
  length ws = (last + 1 - first)%nat /\
  length wm = (last + 1 - first)%nat /\
  (nan_free signal ->
   is_minimum (window_min ws) ws /\ is_maximum (window_max wm) wm).
Proof. apply (buffers_index_by_index [4; 2; 9; 7; 3]%float 1 1 1). simpl. lia. Defined.
